(** * Fractus: escape-time fractal renderer (src/dist/fractus.js)

    A shallow embedding of the browser renderer and the properties its
    specification states about it.

    Modelling conventions.
    - A JavaScript [number] is modelled as a real number (the data model
      of the specification: "ordered pair of two finite real numbers").
      Rounding of IEEE-754 doubles, NaN and the infinities are outside
      the model; division by zero follows the convention of [Rdiv].
    - Loop counters, pixel indices and canvas dimensions are integers.
    - The globals [draw_area] and [frac_params] are read by most
      functions and mutated by the click handlers; they are passed
      explicitly and a handler returns the new value.
    - [imgdata.data] is a [Uint8ClampedArray]: a list of octets updated
      by index, where a store converts the number and a store outside
      the array is ignored. *)

From Stdlib Require Import Reals Lra Lia ZArith List.
From stdpp Require Import base list.
Import ListNotations.

#[local] Open Scope R_scope.

(** ** Complex number operators *)

Definition complex : Type := R * R.

Definition cAdd (z1 z2 : complex) : complex :=
  (fst z1 + fst z2, snd z1 + snd z2).

Definition cMult (z1 z2 : complex) : complex :=
  (fst z1 * fst z2 - snd z1 * snd z2,
   fst z1 * snd z2 + snd z1 * fst z2).

Definition cAbs2 (z : complex) : R := fst z ^ 2 + snd z ^ 2.

Definition cAbs (z : complex) : R := sqrt (cAbs2 z).

(** ** Color functions *)

(** RGBA; a JavaScript array of numbers. *)
Definition color : Type := list R.

Definition ColorFunc : Type := Z -> complex -> color.

(** At [cAbs z = 0] the quotient of the code is not a finite number;
    the properties that evaluate [smoothIters] keep away from the
    origin. *)
Definition smoothIters (iters : Z) (z : complex) : R :=
  IZR iters + 1 - ln 2 / cAbs z / ln 2.

(** Frequency, phase, and a minimum value if applicable
    ([let [f, p, min = 0] = params[chan]]). *)
Record PCLChannelParams : Type := mkChan {
  freq : R;
  phase : R;
  minimum : option R
}.

Definition PCLParams : Type :=
  (PCLChannelParams * PCLChannelParams * PCLChannelParams)%type.

Definition channelParams (params : PCLParams) (chan : nat) : PCLChannelParams :=
  match chan with
  | O => fst (fst params)
  | S O => snd (fst params)
  | _ => snd params
  end.

Definition phasedChannel (params : PCLParams) (si : R) (chan : nat) : R :=
  let f := freq (channelParams params chan) in
  let p := phase (channelParams params chan) in
  let min := default 0 (minimum (channelParams params chan)) in
  sin (f * si + p) * (255 - min) + min.

Definition makePhasedColorLoop (params : PCLParams) : ColorFunc :=
  fun i z =>
    let si := smoothIters i z in
    let colors := map (phasedChannel params si) (seq 0 3) in
    colors ++ [255].

Module color_funcs.
(** All escape points are white. *)
Definition whiteEscape : ColorFunc := fun _ _ => [255; 255; 255; 255].

(** A demo phased color loop. *)
Definition pcl : ColorFunc :=
  makePhasedColorLoop
    (mkChan (16 / 1000) 4 (Some 25),
     mkChan (13 / 100) 2 (Some 25),
     mkChan (1 / 100) 1 (Some 25)).
End color_funcs.

(** ** Global state *)

(** The canvas element: only its pixel dimensions are read. *)
Record DrawArea : Type := mkDrawArea {
  width : Z;
  height : Z
}.

Record FracalParams : Type := mkParams {
  vw : R;
  vh : R;
  bl : complex;
  max_iters : Z;
  iterFunc : complex -> complex -> complex;
  colorFunc : ColorFunc
}.

Definition default_iterFunc (z c : complex) : complex := cAdd (cMult z z) c.

(** The initial value of the global [frac_params]. *)
Definition frac_params : FracalParams :=
  {| vw := 4;
     vh := 2;
     bl := (-3, -1);
     max_iters := 1000;
     iterFunc := default_iterFunc;
     colorFunc := color_funcs.pcl |}.

(** ** Canvas <-> Complex Conversion

    Pixel coord uses a top-left origin; the complex tile uses a bottom
    left origin and proper y directionality. *)

(** Truncation toward zero, and the remainder operator [%] of
    JavaScript on numbers: the result has the sign of the dividend. *)
Definition Rtrunc (r : R) : Z :=
  if Rle_dec 0 r then Int_part r else (- Int_part (- r))%Z.

Definition js_rem (a b : R) : R := a - b * IZR (Rtrunc (a / b)).

Definition pxCoord2Index (da : DrawArea) (coord : R * R) : R :=
  let '(x, y) := coord in
  4 * (y * IZR (width da) + x).

Definition pxIndex2Coord (da : DrawArea) (index : R) : R * R :=
  let n := index / 4 in
  let x := js_rem n (IZR (width da)) in
  (x, (n - x) / IZR (width da)).

Definition pxCoord2CompTile (da : DrawArea) (pxcoord : R * R) : complex :=
  let '(px, py) := pxcoord in
  (px, IZR (height da) - py).

Definition compTile2PxCoord (da : DrawArea) (tile : complex) : R * R :=
  let '(tx, ty) := tile in
  (tx, IZR (height da) - ty).

Definition tile2Comp (da : DrawArea) (fp : FracalParams) (tile : complex)
    : complex :=
  let '(tx, ty) := tile in
  (fst (bl fp) + vw fp / IZR (width da) * tx,
   snd (bl fp) + vh fp / IZR (height da) * ty).

Definition pixelIndexToComp (da : DrawArea) (fp : FracalParams) (index : R)
    : complex :=
  tile2Comp da fp (pxCoord2CompTile da (pxIndex2Coord da index)).

(** ** The escape loop of [genFractal]

    [for (; tally < max_iters; tally++) { z = iterFunc(z, c);
       if (cAbs2(z) > 4) break; }]

    [escapeLoop] recurses on the number [n] of loop tests that are still
    going to succeed, [max_iters - tally]; it returns the final [tally]
    and [z]. *)

Fixpoint escapeLoop (fp : FracalParams) (c : complex)
    (n : nat) (tally : Z) (z : complex) : Z * complex :=
  match n with
  | O => (tally, z)
  | S n' =>
      let z' := iterFunc fp z c in
      if Rgt_dec (cAbs2 z') 4 then (tally, z')
      else escapeLoop fp c n' (tally + 1)%Z z'
  end.

Definition escapeTime (fp : FracalParams) (c : complex) : Z * complex :=
  escapeLoop fp c (Z.to_nat (max_iters fp)) 0%Z (0, 0).

(** The same loop as a transition system over its control points, each
    transition recording whether it applied the map. *)

Inductive LoopState : Type :=
  | AtTest (tally : Z) (z : complex)
  | Exited (tally : Z) (z : complex).

Inductive loop_step (fp : FracalParams) (c : complex) :
    LoopState -> nat -> LoopState -> Prop :=
  | step_exit tally z :
      ~ (tally < max_iters fp)%Z ->
      loop_step fp c (AtTest tally z) 0%nat (Exited tally z)
  | step_break tally z :
      (tally < max_iters fp)%Z ->
      cAbs2 (iterFunc fp z c) > 4 ->
      loop_step fp c (AtTest tally z) 1%nat (Exited tally (iterFunc fp z c))
  | step_next tally z :
      (tally < max_iters fp)%Z ->
      ~ cAbs2 (iterFunc fp z c) > 4 ->
      loop_step fp c (AtTest tally z) 1%nat
        (AtTest (tally + 1)%Z (iterFunc fp z c)).

(** [loop_run fp c s steps apps s']: [s'] is reached from [s] in [steps]
    transitions, [apps] of which applied the map. *)
Inductive loop_run (fp : FracalParams) (c : complex) :
    LoopState -> nat -> nat -> LoopState -> Prop :=
  | run_done s : loop_run fp c s 0%nat 0%nat s
  | run_more s a s' steps apps s'' :
      loop_step fp c s a s' ->
      loop_run fp c s' steps apps s'' ->
      loop_run fp c s (S steps) (a + apps)%nat s''.

(** The iterates of the map from [z]: [orbit_from f c z k] is the value
    of [z] after [k] applications. *)
Fixpoint orbit_from (f : complex -> complex -> complex) (c z : complex)
    (k : nat) : complex :=
  match k with
  | O => z
  | S k' => f (orbit_from f c z k') c
  end.

Definition orbit (fp : FracalParams) (c : complex) (k : nat) : complex :=
  orbit_from (iterFunc fp) c (0, 0) k.

(** ** The render pass *)

(** The conversion a [Uint8ClampedArray] applies to a stored number:
    clamp to [0, 255], then round to the nearest integer, ties to even. *)
Definition toUint8Clamp (r : R) : Z :=
  if Rle_dec r 0 then 0%Z
  else if Rle_dec 255 r then 255%Z
  else
    let f := Int_part r in
    if Rlt_dec (IZR f + / 2) r then (f + 1)%Z
    else if Rlt_dec r (IZR f + / 2) then f
    else if Z.even f then f else (f + 1)%Z.

(** [color.forEach(c => imgdata.data[index++] = c)] *)
Fixpoint setPixelColor (data : list Z) (index : nat) (col : color) : list Z :=
  match col with
  | [] => data
  | c :: col' => setPixelColor (<[index := toUint8Clamp c]> data) (S index) col'
  end.

(** The body of the pixel loop once the seed [c] of the pixel is known,
    up to the call of [setPixelColor]: the color chosen for the pixel. *)
Definition pixelColor (fp : FracalParams) (c : complex) : color :=
  let tally := fst (escapeTime fp c) in
  if (tally =? max_iters fp)%Z then [0; 0; 0; 255]
  else colorFunc fp tally c.

Definition pixelSeed (fp : FracalParams) (da : DrawArea) (pxi : nat)
    : complex :=
  pixelIndexToComp da fp (IZR (Z.of_nat pxi)).

(** [for (let pxi = 0; pxi < imgdata.data.length; pxi += 4) ...], run for
    at most [fuel] iterations; the final [pxi] and buffer. *)
Fixpoint genFractal_loop (fp : FracalParams) (da : DrawArea)
    (fuel : nat) (pxi : nat) (data : list Z) : nat * list Z :=
  match fuel with
  | O => (pxi, data)
  | S fuel' =>
      if (pxi <? length data)%nat then
        genFractal_loop fp da fuel' (pxi + 4)
          (setPixelColor data pxi (pixelColor fp (pixelSeed fp da pxi)))
      else (pxi, data)
  end.

(** [genFractal]: from the canvas contents read by [getImageData] to the
    contents written back by [putImageData]. One iteration per octet is
    more than the loop ever runs. *)
Definition genFractal (fp : FracalParams) (da : DrawArea) (data : list Z)
    : list Z :=
  snd (genFractal_loop fp da (length data) 0 data).

(** ** User Interface *)

Record MouseEvent : Type := mkMouseEvent {
  offsetX : R;
  offsetY : R
}.

Definition mouseEventToPxCoord (event : MouseEvent) : R * R :=
  (offsetX event, offsetY event).

Definition set_vw (fp : FracalParams) (v : R) : FracalParams :=
  mkParams v (vh fp) (bl fp) (max_iters fp) (iterFunc fp) (colorFunc fp).

Definition set_vh (fp : FracalParams) (v : R) : FracalParams :=
  mkParams (vw fp) v (bl fp) (max_iters fp) (iterFunc fp) (colorFunc fp).

Definition set_bl (fp : FracalParams) (v : complex) : FracalParams :=
  mkParams (vw fp) (vh fp) v (max_iters fp) (iterFunc fp) (colorFunc fp).

Definition set_max_iters (fp : FracalParams) (v : Z) : FracalParams :=
  mkParams (vw fp) (vh fp) (bl fp) v (iterFunc fp) (colorFunc fp).

Definition set_colorFunc (fp : FracalParams) (v : ColorFunc) : FracalParams :=
  mkParams (vw fp) (vh fp) (bl fp) (max_iters fp) (iterFunc fp) v.

(** The assignments of the click handler of [draw_area]: zoom to the
    clicked area 2x. *)
Definition zoomTo (da : DrawArea) (fp : FracalParams) (ev : MouseEvent)
    : FracalParams :=
  let pxcoord := mouseEventToPxCoord ev in
  let comp := tile2Comp da fp (pxCoord2CompTile da pxcoord) in
  let fp1 := set_vw fp (vw fp * (5 / 10)) in
  let fp2 := set_vh fp1 (vh fp1 * (5 / 10)) in
  set_bl fp2 (fst comp - 5 / 10 * vw fp2, snd comp - 5 / 10 * vh fp2).

(** The click handler: new parameters and the re-rendered canvas. *)
Definition onClick (da : DrawArea) (fp : FracalParams) (data : list Z)
    (ev : MouseEvent) : FracalParams * list Z :=
  let fp' := zoomTo da fp ev in
  (fp', genFractal fp' da data).

(** The handler of the reset button. *)
Definition onReset (da : DrawArea) (fp : FracalParams) (data : list Z)
    : FracalParams * list Z :=
  let fp' :=
    set_max_iters (set_bl (set_vh (set_vw fp 4) 2) (-3, -1)) 1000 in
  (fp', genFractal fp' da data).

(** ** The smoothing formula of the specification

    The specification's words, for comparison with [smoothIters]:
    [count + 1 - log(log(|z_final|))/log(2)]. *)
Definition normalizedIterationCount (count : Z) (z_final : complex) : R :=
  IZR count + 1 - ln (ln (cAbs z_final)) / ln 2.

(** ** Further definitions

    A run of clicks on the canvas, each zooming the parameters left by
    the one before. *)
Definition zoomClicks (da : DrawArea) (fp : FracalParams)
    (evs : list MouseEvent) : FracalParams :=
  fold_left (zoomTo da) evs fp.

(** The conjugate ([cConj], commented out in the source). *)
Definition cConj (z : complex) : complex := (fst z, - snd z).

(** The escape loop of the second TypeScript variant of [genFractal],
    which tests before it applies the map:

    [for (; tally < max_iters; tally++) { if (cAbs2(z) > 4) break;
       z = iterFunc(z, c); }] *)
Module TestFirst.

Fixpoint escapeLoop (fp : FracalParams) (c : complex)
    (n : nat) (tally : Z) (z : complex) : Z * complex :=
  match n with
  | O => (tally, z)
  | S n' =>
      if Rgt_dec (cAbs2 z) 4 then (tally, z)
      else escapeLoop fp c n' (tally + 1)%Z (iterFunc fp z c)
  end.

Definition escapeTime (fp : FracalParams) (c : complex) : Z * complex :=
  escapeLoop fp c (Z.to_nat (max_iters fp)) 0%Z (0, 0).

End TestFirst.

(** The Julia program of the repository: escape timing and the basic
    coloring functions. A color is an RGBA value in the unit range. *)
Module Julia.

Definition abs2 (z : complex) : R := fst z * fst z + snd z * snd z.

(** [for i in 1:iters; z = func(z, c);
       if abs2(z) >= 4 return smooth(i, c) end; end]:
    [Some] is the early return, [None] the end of the range; [n] is the
    number of values of [i] still to come. *)
Fixpoint escapeLoop (func : complex -> complex -> complex)
    (smooth : Z -> complex -> R) (c : complex)
    (n : nat) (i : Z) (z : complex) : option R :=
  match n with
  | O => None
  | S n' =>
      let z' := func z c in
      if Rge_dec (abs2 z') 4 then Some (smooth i c)
      else escapeLoop func smooth c n' (i + 1)%Z z'
  end.

Definition escapeTimeWith (func : complex -> complex -> complex)
    (iters : Z) (smooth : Z -> complex -> R) (c : complex) : R :=
  match escapeLoop func smooth c (Z.to_nat iters) 1%Z (0, 0) with
  | Some e => e
  | None => IZR iters
  end.

(** The default [smooth = (e, c) -> e]. *)
Definition noSmooth (e : Z) (c : complex) : R := IZR e.

Definition RGBA : Type := (R * R * R * R)%type.

(** [monocolor(iters) = n -> (n == iters ? RGBA(0,0,0,1) : RGBA(1,1,1,1))] *)
Definition monocolor (iters : Z) (n : R) : RGBA :=
  if Req_dec_T n (IZR iters) then (0, 0, 0, 1) else (1, 1, 1, 1).

End Julia.

(** * Properties *)

Lemma orbit_from_shift f c z k :
  orbit_from f c (f z c) k = orbit_from f c z (S k).
Proof.
  induction k as [|k IH]; simpl; [reflexivity|].
  rewrite IH. reflexivity.
Qed.

(** What [escapeLoop] returns, in terms of the iterates. *)
Lemma escapeLoop_spec fp c n : forall tally z,
  let r := escapeLoop fp c n tally z in
  (fst r = (tally + Z.of_nat n)%Z /\
   snd r = orbit_from (iterFunc fp) c z n /\
   (forall k, (1 <= k <= n)%nat ->
      ~ cAbs2 (orbit_from (iterFunc fp) c z k) > 4))
  \/
  (exists k, (1 <= k <= n)%nat /\
     fst r = (tally + Z.of_nat k - 1)%Z /\
     snd r = orbit_from (iterFunc fp) c z k /\
     cAbs2 (orbit_from (iterFunc fp) c z k) > 4 /\
     (forall j, (1 <= j < k)%nat ->
        ~ cAbs2 (orbit_from (iterFunc fp) c z j) > 4)).
Proof.
  induction n as [|n IH]; intros tally z; simpl.
  - left. repeat split; [lia|]. intros k Hk. lia.
  - destruct (Rgt_dec (cAbs2 (iterFunc fp z c)) 4) as [Hesc|Hno].
    + right. exists 1%nat. simpl.
      split; [lia|]. split; [lia|]. split; [reflexivity|].
      split; [exact Hesc|]. intros j Hj. lia.
    + destruct (IH (tally + 1)%Z (iterFunc fp z c)) as [(Ht & Hz & Hall)|(k & Hk & Ht & Hz & Hesc & Hall)].
      * left. split; [rewrite Ht; lia|]. split.
        { rewrite Hz. apply orbit_from_shift. }
        intros k Hk. destruct k as [|k]; [lia|].
        destruct k as [|k]; [exact Hno|].
        rewrite <- orbit_from_shift. apply Hall. lia.
      * right. exists (S k). split; [lia|]. split; [rewrite Ht; lia|].
        rewrite <- orbit_from_shift. split; [exact Hz|]. split; [exact Hesc|].
        intros j Hj. destruct j as [|j]; [lia|].
        destruct j as [|j]; [exact Hno|].
        rewrite <- orbit_from_shift. apply Hall. lia.
Qed.

(** *** The escape loop as a transition system *)

Lemma loop_step_det fp c s a1 s1 a2 s2 :
  loop_step fp c s a1 s1 -> loop_step fp c s a2 s2 -> a1 = a2 /\ s1 = s2.
Proof.
  intros H1 H2.
  destruct H1; inversion H2; subst; auto; contradiction.
Qed.

(** Any execution is a prefix of the one that leaves the loop. *)
Lemma loop_run_prefix fp c s steps apps tally z :
  loop_run fp c s steps apps (Exited tally z) ->
  forall steps' apps' s',
    loop_run fp c s steps' apps' s' ->
    (steps' <= steps)%nat /\ (apps' <= apps)%nat.
Proof.
  intros Hrun.
  remember (Exited tally z) as final eqn:Hfinal.
  induction Hrun as [s|s a s1 steps apps s2 Hstep Hrun IH];
    intros steps' apps' s' Hrun'.
  - subst s. inversion Hrun' as [|? ? ? ? ? ? Hstep']; subst; [lia|].
    inversion Hstep'.
  - inversion Hrun' as [|? a' s1' steps1 apps1 ? Hstep' Hrun1]; subst; [lia|].
    destruct (loop_step_det _ _ _ _ _ _ _ Hstep Hstep') as [-> ->].
    destruct (IH eq_refl _ _ _ Hrun1). lia.
Qed.

(** An execution that has left the loop is the only such execution. *)
Lemma loop_run_exit_unique fp c s steps apps tally z :
  loop_run fp c s steps apps (Exited tally z) ->
  forall steps' apps' tally' z',
    loop_run fp c s steps' apps' (Exited tally' z') ->
    steps' = steps /\ apps' = apps /\ tally' = tally /\ z' = z.
Proof.
  intros Hrun.
  remember (Exited tally z) as final eqn:Hfinal.
  induction Hrun as [s|s a s1 steps apps s2 Hstep Hrun IH];
    intros steps' apps' tally' z' Hrun'.
  - subst s. inversion Hrun' as [|? ? ? ? ? ? Hstep']; subst.
    + auto.
    + inversion Hstep'.
  - inversion Hrun' as [|? a' s1' steps1 apps1 ? Hstep' Hrun1]; subst.
    + inversion Hstep.
    + destruct (loop_step_det _ _ _ _ _ _ _ Hstep Hstep') as [-> ->].
      destruct (IH eq_refl _ _ _ _ Hrun1) as (-> & -> & -> & ->). auto.
Qed.

(** [escapeLoop] computes the state in which the transition system
    leaves the loop, and counts the map applications on the way. *)
Lemma loop_run_escapeLoop fp c n : forall tally z,
  n = Z.to_nat (max_iters fp - tally) ->
  let r := escapeLoop fp c n tally z in
  exists steps apps,
    loop_run fp c (AtTest tally z) steps apps (Exited (fst r) (snd r)) /\
    (steps <= S n)%nat /\ (apps <= n)%nat /\
    ((tally <= max_iters fp)%Z -> fst r <> max_iters fp ->
       Z.of_nat apps = (fst r - tally + 1)%Z) /\
    ((tally <= max_iters fp)%Z -> fst r = max_iters fp ->
       Z.of_nat apps = (max_iters fp - tally)%Z).
Proof.
  induction n as [|n IH]; intros tally z Hn; simpl.
  - exists 1%nat, 0%nat. split.
    + eapply (run_more fp c _ 0%nat _ 0%nat 0%nat);
        [apply step_exit; lia|apply run_done].
    + repeat split; lia.
  - assert (Hlt : (tally < max_iters fp)%Z) by lia.
    destruct (Rgt_dec (cAbs2 (iterFunc fp z c)) 4) as [Hesc|Hno]; simpl.
    + exists 1%nat, 1%nat. split.
      * eapply (run_more fp c _ 1%nat _ 0%nat 0%nat);
          [apply step_break; assumption|apply run_done].
      * repeat split; lia.
    + destruct (IH (tally + 1)%Z (iterFunc fp z c)) as
        (steps & apps & Hrun & Hsteps & Happs & Hesc & Hcap); [lia|].
      exists (S steps), (1 + apps)%nat. split.
      * eapply (run_more fp c _ 1%nat _ steps apps);
          [apply step_next; assumption|exact Hrun].
      * split; [lia|]. split; [lia|]. split.
        -- intros _ Hne. specialize (Hesc ltac:(lia) Hne). lia.
        -- intros _ He. specialize (Hcap ltac:(lia) He). lia.
Qed.

(** *** Unfolding one iteration of the escape loop *)

Lemma escapeLoop_break fp c n tally z :
  cAbs2 (iterFunc fp z c) > 4 ->
  escapeLoop fp c (S n) tally z = (tally, iterFunc fp z c).
Proof.
  intros H. simpl. destruct (Rgt_dec (cAbs2 (iterFunc fp z c)) 4); tauto.
Qed.

Lemma escapeLoop_next fp c n tally z :
  ~ cAbs2 (iterFunc fp z c) > 4 ->
  escapeLoop fp c (S n) tally z =
  escapeLoop fp c n (tally + 1)%Z (iterFunc fp z c).
Proof.
  intros H. simpl. destruct (Rgt_dec (cAbs2 (iterFunc fp z c)) 4); tauto.
Qed.

(** A seed whose first iterate escapes stops the loop with [tally = 0]. *)
Lemma escapeTime_first fp c :
  (0 < max_iters fp)%Z ->
  cAbs2 (iterFunc fp (0, 0) c) > 4 ->
  escapeTime fp c = (0%Z, iterFunc fp (0, 0) c).
Proof.
  intros Hpos Hesc. unfold escapeTime.
  replace (Z.to_nat (max_iters fp)) with (S (Z.to_nat (max_iters fp - 1)))
    by lia.
  apply escapeLoop_break. exact Hesc.
Qed.

Lemma default_iterFunc_origin c : default_iterFunc (0, 0) c = c.
Proof.
  destruct c as [x y]. unfold default_iterFunc, cAdd, cMult. simpl.
  f_equal; ring.
Qed.

Lemma escapeTime_3_0 : escapeTime frac_params (3, 0) = (0%Z, (3, 0)).
Proof.
  rewrite escapeTime_first.
  - simpl. rewrite default_iterFunc_origin. reflexivity.
  - simpl. lia.
  - simpl. rewrite default_iterFunc_origin. unfold cAbs2. simpl. lra.
Qed.

(** *** The pixel loop *)

Lemma setPixelColor_length col : forall data index,
  length (setPixelColor data index col) = length data.
Proof.
  induction col as [|c col IH]; intros data index; simpl; [reflexivity|].
  rewrite IH. apply length_insert.
Qed.

(** With one unit of fuel per four octets the pixel loop leaves through
    its own test, and the buffer keeps its length. *)
Lemma genFractal_loop_exit fp da fuel : forall pxi data,
  (length data <= pxi + 4 * fuel)%nat ->
  (length data <= fst (genFractal_loop fp da fuel pxi data))%nat /\
  length (snd (genFractal_loop fp da fuel pxi data)) = length data.
Proof.
  induction fuel as [|fuel IH]; intros pxi data Hfuel; simpl.
  - split; [lia|reflexivity].
  - destruct (Nat.ltb_spec pxi (length data)) as [Hlt|Hge]; simpl.
    + destruct (IH (pxi + 4)%nat
                  (setPixelColor data pxi (pixelColor fp (pixelSeed fp da pxi)))) as [H1 H2].
      { rewrite setPixelColor_length. lia. }
      rewrite setPixelColor_length in H1, H2. split; assumption.
    + split; [lia|reflexivity].
Qed.

(** Fuel beyond what the loop needs does not change its result. *)
Lemma genFractal_loop_fuel fp da fuel1 : forall fuel2 pxi data,
  (length data <= pxi + 4 * fuel1)%nat ->
  (length data <= pxi + 4 * fuel2)%nat ->
  genFractal_loop fp da fuel1 pxi data = genFractal_loop fp da fuel2 pxi data.
Proof.
  induction fuel1 as [|fuel1 IH]; intros fuel2 pxi data H1 H2.
  - destruct fuel2 as [|fuel2]; simpl; [reflexivity|].
    destruct (Nat.ltb_spec pxi (length data)); [lia|reflexivity].
  - destruct fuel2 as [|fuel2]; simpl.
    + destruct (Nat.ltb_spec pxi (length data)); [lia|reflexivity].
    + destruct (Nat.ltb_spec pxi (length data)); [|reflexivity].
      apply IH; rewrite setPixelColor_length; lia.
Qed.

(** ** Escape-Time Engine *)

(** C4. For every seed, map and positive [max_iters], the engine starts
    from z = (0,0) and applies [z <- iterFunc(z, c)] repeatedly; the test
    [cAbs2(z) > 4] is made on the iterates 1, 2, ... only, never on the
    starting value. The loop stops at the first iterate that passes the
    test (the pixel is then treated as escaped, [tally <> max_iters]),
    and [tally = max_iters] (captured) holds exactly when none of the
    [max_iters] iterates passes it. *)
Theorem C4_escape_engine_contract fp c :
  (0 < max_iters fp)%Z ->
  let N := Z.to_nat (max_iters fp) in
  let tally := fst (escapeTime fp c) in
  let z := snd (escapeTime fp c) in
  orbit fp c 0 = (0, 0) /\
  (forall k, orbit fp c (S k) = iterFunc fp (orbit fp c k) c) /\
  (tally = max_iters fp <->
     forall k, (1 <= k <= N)%nat -> ~ cAbs2 (orbit fp c k) > 4) /\
  (tally = max_iters fp -> z = orbit fp c N) /\
  (tally <> max_iters fp ->
     exists k, (1 <= k <= N)%nat /\
       tally = (Z.of_nat k - 1)%Z /\
       z = orbit fp c k /\
       cAbs2 (orbit fp c k) > 4 /\
       forall j, (1 <= j < k)%nat -> ~ cAbs2 (orbit fp c j) > 4).
Proof.
  intros Hpos N tally z. subst N tally z.
  split; [reflexivity|]. split; [reflexivity|].
  pose proof (escapeLoop_spec fp c (Z.to_nat (max_iters fp)) 0%Z (0, 0)) as H.
  cbv zeta in H.
  change (escapeLoop fp c (Z.to_nat (max_iters fp)) 0%Z (0, 0))
    with (escapeTime fp c) in H.
  change (orbit_from (iterFunc fp) c (0, 0)) with (orbit fp c) in H.
  destruct H as [(Ht & Hz & Hall)|(k & Hk & Ht & Hz & Hesc & Hall)].
  - assert (Hcap : fst (escapeTime fp c) = max_iters fp) by lia.
    split; [split; [intros _; exact Hall|intros _; exact Hcap]|].
    split; [intros _; exact Hz|]. intros Hne. contradiction.
  - assert (Hne : fst (escapeTime fp c) <> max_iters fp) by lia.
    split; [split|].
    + intros Hcap. contradiction.
    + intros Hnone. exfalso. apply (Hnone k); [lia|exact Hesc].
    + split; [intros Hcap; contradiction|].
      intros _. exists k. split; [exact Hk|]. split; [lia|].
      split; [exact Hz|]. split; [exact Hesc|exact Hall].
Qed.

Lemma C4_escape_engine_contract_witness :
  (0 < max_iters frac_params)%Z /\
  orbit frac_params (3, 0) 0 = (0, 0).
Proof.
  split; [simpl; lia|].
  apply (C4_escape_engine_contract frac_params (3, 0)). simpl. lia.
Defined.

(** C3 (as stated, refuted). For the seed c = (3,0) and the default map
    z^2 + c the loop stops with the count 0, not 1. *)
Lemma C3_count_not_one_based :
  fst (escapeTime frac_params (3, 0)) = 0%Z /\
  fst (escapeTime frac_params (3, 0)) <> 1%Z.
Proof.
  rewrite escapeTime_3_0. simpl. split; [reflexivity|discriminate].
Qed.

(** C3 (amended). When the loop stops because the escape test succeeds,
    the count it returns, which is the count passed to the color
    function, is one less than the number of completed map applications;
    for the seed c = (3,0) and the map z^2 + c the loop stops after one
    application with the count 0. *)
Theorem C3_count_zero_based :
  (forall fp c steps apps tally z,
     (0 < max_iters fp)%Z ->
     loop_run fp c (AtTest 0 (0, 0)) steps apps (Exited tally z) ->
     tally <> max_iters fp ->
     (tally, z) = escapeTime fp c /\
     Z.of_nat apps = (tally + 1)%Z /\
     pixelColor fp c = colorFunc fp tally c) /\
  loop_run frac_params (3, 0) (AtTest 0 (0, 0)) 1 1 (Exited 0 (3, 0)).
Proof.
  split.
  - intros fp c steps apps tally z Hpos Hrun Hne.
    pose proof (loop_run_escapeLoop fp c (Z.to_nat (max_iters fp)) 0%Z (0, 0))
      as H.
    cbv zeta in H.
    change (escapeLoop fp c (Z.to_nat (max_iters fp)) 0%Z (0, 0))
      with (escapeTime fp c) in H.
    destruct H as (steps0 & apps0 & Hrun0 & _ & _ & Hesc & _); [lia|].
    destruct (loop_run_exit_unique fp c _ _ _ _ _ Hrun0 _ _ _ _ Hrun)
      as (-> & -> & -> & ->).
    split; [destruct (escapeTime fp c); reflexivity|].
    split; [specialize (Hesc ltac:(lia) Hne); lia|].
    unfold pixelColor.
    destruct (Z.eqb_spec (fst (escapeTime fp c)) (max_iters fp));
      [contradiction|reflexivity].
  - apply (run_more frac_params (3, 0) (AtTest 0 (0, 0)) 1%nat
             (Exited 0 (3, 0)) 0%nat 0%nat); [|apply run_done].
    rewrite <- (default_iterFunc_origin (3, 0)) at 2.
    apply (step_break frac_params (3, 0) 0%Z (0, 0)).
    + simpl. lia.
    + simpl. rewrite default_iterFunc_origin. unfold cAbs2. simpl. lra.
Qed.

Lemma C3_count_zero_based_witness :
  (0 < max_iters frac_params)%Z /\
  0%Z <> max_iters frac_params /\
  ((0%Z, (3, 0)) = escapeTime frac_params (3, 0) /\
   Z.of_nat 1 = (0 + 1)%Z /\
   pixelColor frac_params (3, 0) = colorFunc frac_params 0%Z (3, 0)).
Proof.
  split; [simpl; lia|]. split; [simpl; lia|].
  apply (proj1 C3_count_zero_based frac_params (3, 0) 1%nat 1%nat 0%Z (3, 0)).
  - simpl. lia.
  - exact (proj2 C3_count_zero_based).
  - simpl. lia.
Defined.

Lemma escapeLoop_origin fp n : forall tally,
  iterFunc fp = default_iterFunc ->
  escapeLoop fp (0, 0) n tally (0, 0) = ((tally + Z.of_nat n)%Z, (0, 0)).
Proof.
  induction n as [|n IH]; intros tally Hf.
  - simpl. f_equal. lia.
  - rewrite escapeLoop_next.
    + rewrite Hf, default_iterFunc_origin, IH by exact Hf. f_equal. lia.
    + rewrite Hf, default_iterFunc_origin. unfold cAbs2. simpl. lra.
Qed.

Lemma escapeTime_origin fp :
  iterFunc fp = default_iterFunc ->
  (0 <= max_iters fp)%Z ->
  escapeTime fp (0, 0) = (max_iters fp, (0, 0)).
Proof.
  intros Hf Hpos. unfold escapeTime.
  rewrite escapeLoop_origin by exact Hf. f_equal. lia.
Qed.

(** C8. For the seed c = (0,0) and the map z^2 + c the loop runs out its
    budget for every [max_iters >= 1]: z is (0,0) after every
    application, the escape test never holds, and the pixel is treated
    as captured ([tally = max_iters]). *)
Theorem C8_origin_seed_captured fp :
  iterFunc fp = default_iterFunc ->
  (1 <= max_iters fp)%Z ->
  fst (escapeTime fp (0, 0)) = max_iters fp /\
  snd (escapeTime fp (0, 0)) = (0, 0) /\
  (forall k, orbit fp (0, 0) k = (0, 0) /\ ~ cAbs2 (orbit fp (0, 0) k) > 4) /\
  pixelColor fp (0, 0) = [0; 0; 0; 255].
Proof.
  intros Hf Hpos.
  assert (Het : escapeTime fp (0, 0) = (max_iters fp, (0, 0)))
    by (apply escapeTime_origin; [exact Hf|lia]).
  assert (Horb : forall k, orbit fp (0, 0) k = (0, 0)).
  { unfold orbit. induction k as [|k IH]; simpl; [reflexivity|].
    rewrite IH, Hf. apply default_iterFunc_origin. }
  split; [rewrite Het; reflexivity|]. split; [rewrite Het; reflexivity|].
  split.
  - intros k. split; [apply Horb|].
    rewrite Horb. unfold cAbs2. simpl. lra.
  - unfold pixelColor. rewrite Het. simpl. rewrite Z.eqb_refl. reflexivity.
Qed.

Lemma C8_origin_seed_captured_witness :
  iterFunc frac_params = default_iterFunc /\
  (1 <= max_iters frac_params)%Z /\
  fst (escapeTime frac_params (0, 0)) = 1000%Z.
Proof.
  split; [reflexivity|]. split; [simpl; lia|].
  apply (C8_origin_seed_captured frac_params); [reflexivity|simpl; lia].
Defined.

(** C10. For every seed and every positive [max_iters] the escape loop
    leaves after at most [max_iters] map applications: an execution that
    leaves the loop exists, with the result [escapeTime] computes, and
    every execution is a prefix of it, of at most [max_iters + 1]
    transitions. The pixel loop over a buffer in turn leaves through its
    own test within one iteration per four octets. *)
Theorem C10_render_terminates fp c :
  (0 < max_iters fp)%Z ->
  (exists steps apps,
     loop_run fp c (AtTest 0 (0, 0)) steps apps
       (Exited (fst (escapeTime fp c)) (snd (escapeTime fp c))) /\
     (Z.of_nat apps <= max_iters fp)%Z) /\
  (forall steps apps s,
     loop_run fp c (AtTest 0 (0, 0)) steps apps s ->
     (Z.of_nat apps <= max_iters fp)%Z /\
     (Z.of_nat steps <= max_iters fp + 1)%Z) /\
  (forall da data fuel,
     (length data <= 4 * fuel)%nat ->
     (length data <= fst (genFractal_loop fp da fuel 0 data))%nat /\
     snd (genFractal_loop fp da fuel 0 data) = genFractal fp da data).
Proof.
  intros Hpos.
  pose proof (loop_run_escapeLoop fp c (Z.to_nat (max_iters fp)) 0%Z (0, 0))
    as H.
  cbv zeta in H.
  change (escapeLoop fp c (Z.to_nat (max_iters fp)) 0%Z (0, 0))
    with (escapeTime fp c) in H.
  destruct H as (steps0 & apps0 & Hrun0 & Hsteps & Happs & _); [lia|].
  split; [|split].
  - exists steps0, apps0. split; [exact Hrun0|lia].
  - intros steps apps s Hrun.
    destruct (loop_run_prefix _ _ _ _ _ _ _ Hrun0 _ _ _ Hrun). lia.
  - intros da data fuel Hfuel. split.
    + apply genFractal_loop_exit. lia.
    + unfold genFractal. f_equal. apply genFractal_loop_fuel; lia.
Qed.

Lemma C10_render_terminates_witness :
  (0 < max_iters frac_params)%Z /\
  (forall steps apps s,
     loop_run frac_params (3, 0) (AtTest 0 (0, 0)) steps apps s ->
     (Z.of_nat apps <= max_iters frac_params)%Z /\
     (Z.of_nat steps <= max_iters frac_params + 1)%Z).
Proof.
  split; [simpl; lia|].
  apply (C10_render_terminates frac_params (3, 0)). simpl. lia.
Defined.

(** ** Coordinate Mapper *)

(** On a row-major index the remainder is the column. *)
Lemma js_rem_row_major (W px py : Z) :
  (0 <= px < W)%Z -> (0 <= py)%Z ->
  js_rem (IZR py * IZR W + IZR px) (IZR W) = IZR px.
Proof.
  intros [Hpx0 HpxW] Hpy.
  assert (HW : 0 < IZR W) by (apply IZR_lt; lia).
  assert (Hx0 : 0 <= IZR px) by (apply IZR_le; lia).
  assert (HxW : IZR px < IZR W) by (apply IZR_lt; lia).
  assert (Hy : 0 <= IZR py) by (apply IZR_le; lia).
  assert (Hq : (IZR py * IZR W + IZR px) / IZR W = IZR py + IZR px / IZR W)
    by (field; lra).
  assert (Hfrac0 : 0 <= IZR px / IZR W).
  { apply Rmult_le_pos; [exact Hx0|]. left. apply Rinv_0_lt_compat, HW. }
  assert (Hfrac1 : IZR px / IZR W < 1).
  { apply (Rmult_lt_reg_r (IZR W)); [exact HW|].
    unfold Rdiv. rewrite Rmult_assoc, Rinv_l by lra. lra. }
  unfold js_rem, Rtrunc. rewrite Hq.
  destruct (Rle_dec 0 (IZR py + IZR px / IZR W)) as [_|Hneg]; [|lra].
  rewrite <- (Int_part_spec (IZR py + IZR px / IZR W) py) by lra.
  ring.
Qed.

Lemma pxIndex2Coord_pxCoord2Index da (px py : Z) :
  (0 <= px < width da)%Z -> (0 <= py)%Z ->
  pxIndex2Coord da (pxCoord2Index da (IZR px, IZR py)) = (IZR px, IZR py).
Proof.
  intros Hpx Hpy.
  assert (HW : 0 < IZR (width da)) by (apply IZR_lt; lia).
  unfold pxIndex2Coord, pxCoord2Index.
  replace (4 * (IZR py * IZR (width da) + IZR px) / 4)
    with (IZR py * IZR (width da) + IZR px) by field.
  rewrite js_rem_row_major by assumption.
  f_equal. field. lra.
Qed.

(** C5. For every pixel index i, canvas dimensions and viewport, the
    plane coordinate computed for i is
    [bl + (vw/width * x, vh/height * (height - y))] with
    [x = (i/4) % width] and [y = (i/4 - x)/width]; on the index
    [4 * (py * width + px)] of the pixel in column px of row py these are
    x = px and y = py (row-major, top-left origin, four channels per
    pixel), and only the vertical axis is flipped. *)
Theorem C5_pixel_index_to_plane da fp :
  (forall i,
     let x := js_rem (i / 4) (IZR (width da)) in
     let y := (i / 4 - x) / IZR (width da) in
     pixelIndexToComp da fp i =
     cAdd (bl fp)
       (vw fp / IZR (width da) * x,
        vh fp / IZR (height da) * (IZR (height da) - y))) /\
  (forall px py : Z,
     (0 <= px < width da)%Z -> (0 <= py)%Z ->
     pixelIndexToComp da fp (IZR (4 * (py * width da + px))) =
     cAdd (bl fp)
       (vw fp / IZR (width da) * IZR px,
        vh fp / IZR (height da) * (IZR (height da) - IZR py))).
Proof.
  split.
  - intros i x y. reflexivity.
  - intros px py Hpx Hpy.
    replace (IZR (4 * (py * width da + px)))
      with (pxCoord2Index da (IZR px, IZR py)).
    + unfold pixelIndexToComp.
      rewrite pxIndex2Coord_pxCoord2Index by assumption. reflexivity.
    + unfold pxCoord2Index.
      rewrite mult_IZR, plus_IZR, mult_IZR. reflexivity.
Qed.

Lemma C5_pixel_index_to_plane_witness :
  (0 <= 3 < 4)%Z /\ (0 <= 1)%Z /\
  pixelIndexToComp (mkDrawArea 4 2) frac_params (IZR (4 * (1 * 4 + 3))) =
  cAdd (-3, -1) (4 / IZR 4 * IZR 3, 2 / IZR 2 * (IZR 2 - IZR 1)).
Proof.
  split; [lia|]. split; [lia|].
  apply (proj2 (C5_pixel_index_to_plane (mkDrawArea 4 2) frac_params) 3%Z 1%Z);
    simpl; lia.
Defined.

(** ** Viewport transitions *)

(** C7. A click at a pixel whose plane coordinate is p halves [vw] and
    [vh] and sets [bl] to p - (new vw / 2, new vh / 2), so that p is the
    center of the new viewport; the other parameters are kept. On the
    default viewport (bl (-3,-1), vw 4, vh 2) a click at plane coordinate
    (0,0) gives vw 2, vh 1 and bl (-1,-0.5). *)
Theorem C7_zoom_to_point da :
  (forall fp ev,
     let p := tile2Comp da fp (pxCoord2CompTile da (mouseEventToPxCoord ev)) in
     let fp' := zoomTo da fp ev in
     vw fp' = vw fp / 2 /\
     vh fp' = vh fp / 2 /\
     bl fp' = (fst p - vw fp' / 2, snd p - vh fp' / 2) /\
     cAdd (bl fp') (vw fp' / 2, vh fp' / 2) = p /\
     max_iters fp' = max_iters fp /\
     iterFunc fp' = iterFunc fp /\
     colorFunc fp' = colorFunc fp) /\
  (forall ev,
     tile2Comp da frac_params
       (pxCoord2CompTile da (mouseEventToPxCoord ev)) = (0, 0) ->
     vw (zoomTo da frac_params ev) = 2 /\
     vh (zoomTo da frac_params ev) = 1 /\
     bl (zoomTo da frac_params ev) = (-1, - (1 / 2))) /\
  (forall fp data ev,
     onClick da fp data ev =
     (zoomTo da fp ev, genFractal (zoomTo da fp ev) da data)).
Proof.
  split; [|split].
  - intros fp ev p fp'. subst fp'. unfold zoomTo. fold p.
    destruct p as [p0 p1]. simpl.
    repeat split; try reflexivity; try lra.
    + f_equal; lra.
    + unfold cAdd. simpl. f_equal; lra.
  - intros ev Hp. unfold zoomTo. rewrite Hp. simpl.
    repeat split; try lra. f_equal; lra.
  - intros fp data ev. reflexivity.
Qed.

Lemma C7_zoom_to_point_witness :
  tile2Comp (mkDrawArea 4 2) frac_params
    (pxCoord2CompTile (mkDrawArea 4 2)
       (mouseEventToPxCoord (mkMouseEvent 3 1))) = (0, 0) /\
  vw (zoomTo (mkDrawArea 4 2) frac_params (mkMouseEvent 3 1)) = 2 /\
  vh (zoomTo (mkDrawArea 4 2) frac_params (mkMouseEvent 3 1)) = 1 /\
  bl (zoomTo (mkDrawArea 4 2) frac_params (mkMouseEvent 3 1)) = (-1, - (1 / 2)).
Proof.
  assert (Hp : tile2Comp (mkDrawArea 4 2) frac_params
            (pxCoord2CompTile (mkDrawArea 4 2)
               (mouseEventToPxCoord (mkMouseEvent 3 1))) = (0, 0)).
  { simpl. f_equal; lra. }
  split; [exact Hp|].
  apply (proj1 (proj2 (C7_zoom_to_point (mkDrawArea 4 2)))). exact Hp.
Defined.

(** ** Frame Renderer *)

Lemma toUint8Clamp_0 : toUint8Clamp 0 = 0%Z.
Proof. unfold toUint8Clamp. destruct (Rle_dec 0 0); [reflexivity|lra]. Qed.

Lemma toUint8Clamp_255 : toUint8Clamp 255 = 255%Z.
Proof.
  unfold toUint8Clamp.
  destruct (Rle_dec 255 0); [lra|].
  destruct (Rle_dec 255 255); [reflexivity|lra].
Qed.

(** [setPixelColor] leaves the octets below [index] alone ... *)
Lemma setPixelColor_lookup_lt col : forall (data : list Z) index j,
  (j < index)%nat ->
  setPixelColor data index col !! j = data !! j.
Proof.
  induction col as [|c col IH]; intros data index j Hj; simpl; [reflexivity|].
  rewrite IH by lia. apply list_lookup_insert_ne. lia.
Qed.

(** ... and stores the converted channels from [index] on. *)
Lemma setPixelColor_lookup_in col : forall (data : list Z) index j c,
  (index <= j)%nat -> (j < length data)%nat ->
  col !! (j - index)%nat = Some c ->
  setPixelColor data index col !! j = Some (toUint8Clamp c).
Proof.
  induction col as [|c0 col IH]; intros data index j c Hij Hj Hc; simpl.
  - discriminate.
  - destruct (decide (j = index)) as [->|Hne].
    + rewrite Nat.sub_diag in Hc. simpl in Hc. injection Hc as ->.
      rewrite setPixelColor_lookup_lt by lia.
      apply list_lookup_insert_eq. exact Hj.
    + apply IH; [lia|rewrite length_insert; exact Hj|].
      replace (j - index)%nat with (S (j - S index)) in Hc by lia.
      exact Hc.
Qed.

(** The pixel loop from [pxi] on leaves the octets below [pxi] alone. *)
Lemma genFractal_loop_frame fp da fuel : forall pxi (data : list Z) j,
  (j < pxi)%nat ->
  snd (genFractal_loop fp da fuel pxi data) !! j = data !! j.
Proof.
  induction fuel as [|fuel IH]; intros pxi data j Hj; simpl; [reflexivity|].
  destruct (Nat.ltb_spec pxi (length data)); [|reflexivity].
  rewrite IH by lia. apply setPixelColor_lookup_lt. exact Hj.
Qed.

Lemma genFractal_loop_S fp da fuel pxi (data : list Z) :
  (pxi < length data)%nat ->
  genFractal_loop fp da (S fuel) pxi data =
  genFractal_loop fp da fuel (pxi + 4)
    (setPixelColor data pxi (pixelColor fp (pixelSeed fp da pxi))).
Proof.
  intros H. simpl. destruct (Nat.ltb_spec pxi (length data)); [reflexivity|lia].
Qed.

(** The octets of the pixel at index [pxi + 4 * m] after the loop: the
    converted channels of its color. *)
Lemma genFractal_loop_pixel fp da m : forall fuel pxi (data : list Z) i c,
  (m < fuel)%nat ->
  (i < 4)%nat ->
  (pxi + 4 * m + i < length data)%nat ->
  pixelColor fp (pixelSeed fp da (pxi + 4 * m)) !! i = Some c ->
  snd (genFractal_loop fp da fuel pxi data) !! (pxi + 4 * m + i)%nat =
  Some (toUint8Clamp c).
Proof.
  induction m as [|m IH]; intros fuel pxi data i c Hm Hi Hlen Hc;
    (destruct fuel as [|fuel]; [lia|]);
    rewrite genFractal_loop_S by lia.
  - replace (pxi + 4 * 0)%nat with pxi in * by lia.
    rewrite genFractal_loop_frame by lia.
    apply setPixelColor_lookup_in; [lia|lia|].
    replace (pxi + i - pxi)%nat with i by lia. exact Hc.
  - replace (pxi + 4 * S m)%nat with (pxi + 4 + 4 * m)%nat in * by lia.
    apply IH; [lia|exact Hi|rewrite setPixelColor_length; exact Hlen|exact Hc].
Qed.

(** The escape loop does not read the color function. *)
Lemma escapeLoop_set_colorFunc fp cf c n : forall tally z,
  escapeLoop (set_colorFunc fp cf) c n tally z = escapeLoop fp c n tally z.
Proof.
  induction n as [|n IH]; intros tally z; simpl; [reflexivity|].
  rewrite IH. reflexivity.
Qed.

(** C6. For every pixel of the buffer whose escape loop ran out its
    budget ([tally = max_iters], captured), the renderer writes opaque
    black (0,0,0,255) at the pixel's four octets whatever color function
    is configured: the color function is not called for that pixel. *)
Theorem C6_captured_is_black fp da (data : list Z) k :
  let pxi := (4 * k)%nat in
  let c := pixelSeed fp da pxi in
  (pxi < length data)%nat ->
  fst (escapeTime fp c) = max_iters fp ->
  forall cf : ColorFunc,
    pixelColor (set_colorFunc fp cf) c = [0; 0; 0; 255] /\
    (forall i, (i < 4)%nat -> (pxi + i < length data)%nat ->
       genFractal (set_colorFunc fp cf) da data !! (pxi + i)%nat =
       [0; 0; 0; 255]%Z !! i).
Proof.
  intros pxi c Hpxi Hcap cf.
  assert (Hcol : pixelColor (set_colorFunc fp cf) c = [0; 0; 0; 255]).
  { unfold pixelColor, escapeTime. rewrite escapeLoop_set_colorFunc.
    change (escapeLoop fp c (Z.to_nat (max_iters (set_colorFunc fp cf))) 0%Z (0, 0))
      with (escapeTime fp c).
    rewrite Hcap. simpl. rewrite Z.eqb_refl. reflexivity. }
  split; [exact Hcol|].
  intros i Hi Hlen. unfold genFractal.
  assert (Hget : exists r, ([0; 0; 0; 255] : color) !! i = Some r /\
                   ([0; 0; 0; 255]%Z : list Z) !! i = Some (toUint8Clamp r)).
  { destruct i as [|[|[|[|i]]]]; [| | |  |lia]; simpl;
      eexists; (split; [reflexivity|]);
      rewrite ?toUint8Clamp_0, ?toUint8Clamp_255; reflexivity. }
  destruct Hget as (r & Hr & ->).
  replace (pxi + i)%nat with (0 + 4 * k + i)%nat by (subst pxi; lia).
  apply genFractal_loop_pixel; [subst pxi; lia|exact Hi|subst pxi; simpl; lia|].
  change (pixelSeed (set_colorFunc fp cf) da (0 + 4 * k)) with c.
  rewrite Hcol. exact Hr.
Qed.

(** The top-left pixel of a canvas is mapped to [bl + (0, vh)]. *)
Lemma pixelSeed_0 fp da :
  (0 < width da)%Z -> (0 < height da)%Z ->
  pixelSeed fp da 0 = (fst (bl fp), snd (bl fp) + vh fp).
Proof.
  intros HW HH.
  assert (HWr : 0 < IZR (width da)) by (apply IZR_lt; lia).
  assert (HHr : 0 < IZR (height da)) by (apply IZR_lt; lia).
  unfold pixelSeed, pixelIndexToComp.
  replace (IZR (Z.of_nat 0)) with (pxCoord2Index da (IZR 0, IZR 0))
    by (unfold pxCoord2Index; simpl; ring).
  rewrite pxIndex2Coord_pxCoord2Index by lia.
  unfold tile2Comp, pxCoord2CompTile. f_equal; field; lra.
Qed.

Lemma C6_captured_is_black_witness :
  (4 * 0 < length [7; 7; 7; 7]%Z)%nat /\
  fst (escapeTime (set_bl frac_params (0, -2))
         (pixelSeed (set_bl frac_params (0, -2)) (mkDrawArea 1 1) (4 * 0))) =
  max_iters (set_bl frac_params (0, -2)) /\
  pixelColor
    (set_colorFunc (set_bl frac_params (0, -2)) color_funcs.whiteEscape)
    (pixelSeed (set_bl frac_params (0, -2)) (mkDrawArea 1 1) (4 * 0)) =
  [0; 0; 0; 255].
Proof.
  assert (Hcap :
    fst (escapeTime (set_bl frac_params (0, -2))
           (pixelSeed (set_bl frac_params (0, -2)) (mkDrawArea 1 1) (4 * 0))) =
    max_iters (set_bl frac_params (0, -2))).
  { change (4 * 0)%nat with 0%nat. rewrite pixelSeed_0 by (simpl; lia).
    simpl bl. simpl vh. simpl fst. simpl snd.
    replace (-2 + 2) with 0 by ring.
    rewrite escapeTime_origin; [reflexivity|reflexivity|simpl; lia]. }
  split; [simpl; lia|]. split; [exact Hcap|].
  apply (C6_captured_is_black (set_bl frac_params (0, -2)) (mkDrawArea 1 1)
           [7; 7; 7; 7]%Z 0 ltac:(simpl; lia) Hcap color_funcs.whiteEscape).
Defined.

(** Two buffers of one length that agree below [pxi] are rendered alike
    from [pxi] on, when every pixel color has its four channels. *)
Lemma genFractal_loop_agree fp da fuel : forall pxi (d1 d2 : list Z),
  (forall c, 4 <= length (pixelColor fp c))%nat ->
  length d1 = length d2 ->
  (forall j, (j < pxi)%nat -> d1 !! j = d2 !! j) ->
  (length d1 <= pxi + 4 * fuel)%nat ->
  snd (genFractal_loop fp da fuel pxi d1) =
  snd (genFractal_loop fp da fuel pxi d2).
Proof.
  assert (Hexit : forall pxi (d1 d2 : list Z),
    length d1 = length d2 ->
    (forall j, (j < pxi)%nat -> d1 !! j = d2 !! j) ->
    (length d1 <= pxi)%nat -> d1 = d2).
  { intros pxi d1 d2 Hlen Hagree Hpxi. apply list_eq. intros j.
    destruct (Nat.lt_ge_cases j pxi) as [Hj|Hj]; [apply Hagree, Hj|].
    rewrite !lookup_ge_None_2 by lia. reflexivity. }
  induction fuel as [|fuel IH]; intros pxi d1 d2 Hcol Hlen Hagree Hfuel.
  - simpl. apply (Hexit pxi); [exact Hlen|exact Hagree|lia].
  - simpl. rewrite <- Hlen.
    destruct (Nat.ltb_spec pxi (length d1)) as [Hlt|Hge]; simpl.
    + apply IH; [exact Hcol|rewrite !setPixelColor_length; exact Hlen|
                 |rewrite setPixelColor_length; lia].
      intros j Hj.
      destruct (Nat.lt_ge_cases j pxi) as [Hjp|Hjp].
      * rewrite !setPixelColor_lookup_lt by exact Hjp. apply Hagree, Hjp.
      * destruct (Nat.lt_ge_cases j (length d1)) as [Hjl|Hjl].
        -- pose proof (Hcol (pixelSeed fp da pxi)) as H4.
           destruct (lookup_lt_is_Some_2
                       (pixelColor fp (pixelSeed fp da pxi)) (j - pxi)%nat)
             as [c Hc]; [lia|].
           rewrite (setPixelColor_lookup_in _ d1 pxi j c) by (assumption || lia).
           rewrite (setPixelColor_lookup_in _ d2 pxi j c) by (assumption || lia).
           reflexivity.
        -- rewrite !lookup_ge_None_2 by (rewrite setPixelColor_length; lia).
           reflexivity.
    + apply (Hexit pxi); [exact Hlen|exact Hagree|exact Hge].
Qed.

(** C9. Rendering one configuration (viewport, canvas dimensions,
    [max_iters], iterate and color functions, the latter returning the
    four channels of a color) into two buffers of the same length gives
    the same contents, whatever the buffers held before: the rendered
    frame is a function of the configuration and the dimensions only. *)
Theorem C9_render_deterministic fp da (data1 data2 : list Z) :
  (forall i c, 4 <= length (colorFunc fp i c))%nat ->
  length data1 = length data2 ->
  genFractal fp da data1 = genFractal fp da data2.
Proof.
  intros Hcol Hlen. unfold genFractal. rewrite <- Hlen.
  apply genFractal_loop_agree.
  - intros c. unfold pixelColor.
    destruct (fst (escapeTime fp c) =? max_iters fp)%Z; [simpl; lia|apply Hcol].
  - exact Hlen.
  - intros j Hj. lia.
  - lia.
Qed.

Lemma C9_render_deterministic_witness :
  (forall i c, 4 <= length (colorFunc frac_params i c))%nat /\
  length [0; 0; 0; 0]%Z = length [9; 8; 7; 6]%Z /\
  genFractal frac_params (mkDrawArea 1 1) [0; 0; 0; 0]%Z =
  genFractal frac_params (mkDrawArea 1 1) [9; 8; 7; 6]%Z.
Proof.
  assert (Hcol : (forall i c, 4 <= length (colorFunc frac_params i c))%nat)
    by (intros i c; simpl; lia).
  split; [exact Hcol|]. split; [reflexivity|].
  apply (C9_render_deterministic frac_params (mkDrawArea 1 1)
           [0; 0; 0; 0]%Z [9; 8; 7; 6]%Z Hcol eq_refl).
Defined.

(** ** Color Mapper *)

Lemma ln_2_pos : 0 < ln 2.
Proof. rewrite <- ln_1. apply ln_increasing; lra. Qed.

(** For a seed that is not the origin the smoothing of the code is
    [iters + 1 - 1/|z|]. *)
Lemma smoothIters_inv iters z :
  cAbs z <> 0 -> smoothIters iters z = IZR iters + 1 - / cAbs z.
Proof.
  intros Hz. unfold smoothIters. pose proof ln_2_pos. field. split; lra.
Qed.

Lemma exp_1_gt_9_4 : 9 / 4 < exp 1.
Proof.
  replace 1 with (1 / 2 + 1 / 2) by field.
  rewrite exp_plus.
  assert (H : 1 + 1 / 2 < exp (1 / 2)) by (apply exp_ineq1; lra).
  nra.
Qed.

(** Below e the logarithm of the logarithm is negative. *)
Lemma ln_ln_9_4_neg : ln (ln (9 / 4)) < 0.
Proof.
  assert (H0 : 0 < ln (9 / 4)) by (rewrite <- ln_1; apply ln_increasing; lra).
  assert (H1 : ln (9 / 4) < 1).
  { rewrite <- (ln_exp 1). apply ln_increasing; [lra|apply exp_1_gt_9_4]. }
  rewrite <- ln_1. apply ln_increasing; assumption.
Qed.

(** The phased color loop returns three channels and the alpha 255. *)
Lemma makePhasedColorLoop_channels params i z :
  makePhasedColorLoop params i z =
  [phasedChannel params (smoothIters i z) 0;
   phasedChannel params (smoothIters i z) 1;
   phasedChannel params (smoothIters i z) 2;
   255].
Proof. reflexivity. Qed.




Lemma PI_upper : PI <= 52 / 15.
Proof.
  destruct (PI_ineq 1) as [_ H]. simpl in H.
  unfold tg_alt, PI_tg in H. simpl in H. lra.
Qed.

Lemma sin_half_lower : 5 / 46 < sin (1 / 2).
Proof.
  pose proof PI2_3_2 as H3.
  destruct (SIN (1 / 2)) as [H _]; [lra|lra|].
  unfold sin_lb, sin_approx, sin_term in H. simpl in H. lra.
Qed.

(** The sinusoid of the red channel of the demo loop is below -5/46 on
    the smoothed indices between 0 and 1. *)
Lemma sin_red_demo s :
  0 <= s <= 1 -> sin (16 / 1000 * s + 4) < - (5 / 46).
Proof.
  intros Hs.
  pose proof PI2_3_2 as Hlo. pose proof PI_upper as Hhi.
  pose proof sin_half_lower as Hhalf.
  replace (16 / 1000 * s + 4) with ((16 / 1000 * s + 4 - PI) + PI) by ring.
  rewrite neg_sin.
  assert (Hmono : sin (1 / 2) <= sin (16 / 1000 * s + 4 - PI))
    by (apply sin_incr_1; lra).
  lra.
Qed.

(** The first pixel of the default frame: its seed has magnitude
    sqrt 10 and its smoothed index lies between 0 and 1. *)
Lemma smoothIters_top_left : 0 <= smoothIters 0 (-3, 1) <= 1.
Proof.
  assert (Habs : 1 < cAbs (-3, 1)).
  { unfold cAbs, cAbs2. simpl. rewrite <- sqrt_1 at 1.
    apply sqrt_lt_1; lra. }
  rewrite smoothIters_inv by lra.
  assert (Hi : 0 < / cAbs (-3, 1)) by (apply Rinv_0_lt_compat; lra).
  assert (Hi1 : / cAbs (-3, 1) * cAbs (-3, 1) = 1) by (apply Rinv_l; lra).
  simpl IZR. nra.
Qed.

(** C2 (the code at the failing input). On a 4x4 canvas and the default
    parameters the first pixel has the seed c = (-3,1) and escapes with
    the count 0; the demo phased color loop, the default color function,
    returns for it a red channel below 0: the value
    [sin(f*s + p)*(255 - min) + min] is returned as it is, neither
    clamped nor truncated. The alpha channel is 255. *)
Theorem C2_pcl_channel_out_of_range :
  pixelSeed frac_params (mkDrawArea 4 4) 0 = (-3, 1) /\
  fst (escapeTime frac_params (-3, 1)) = 0%Z /\
  pixelColor frac_params (-3, 1) = color_funcs.pcl 0%Z (-3, 1) /\
  exists r g b,
    color_funcs.pcl 0%Z (-3, 1) = [r; g; b; 255] /\
    r = sin (16 / 1000 * smoothIters 0 (-3, 1) + 4) * (255 - 25) + 25 /\
    r < 0.
Proof.
  assert (Het : escapeTime frac_params (-3, 1) = (0%Z, (-3, 1))).
  { rewrite escapeTime_first.
    - simpl. rewrite default_iterFunc_origin. reflexivity.
    - simpl. lia.
    - simpl. rewrite default_iterFunc_origin. unfold cAbs2. simpl. lra. }
  split; [|split; [|split]].
  - rewrite pixelSeed_0 by (simpl; lia). simpl. f_equal. ring.
  - rewrite Het. reflexivity.
  - unfold pixelColor. rewrite Het. reflexivity.
  - unfold color_funcs.pcl. rewrite makePhasedColorLoop_channels.
    eexists _, _, _. split; [reflexivity|].
    unfold phasedChannel. simpl.
    split; [reflexivity|].
    pose proof (sin_red_demo _ smoothIters_top_left). lra.
Qed.

(** * Further properties of the code *)

(** ** Canvas <-> Complex Conversion *)

(** X1. [pxCoord2Index] undoes [pxIndex2Coord] on every index, whole or
    not, as soon as the canvas width is not zero. *)
Theorem X1_index_of_coord_of_index da i :
  width da <> 0%Z ->
  pxCoord2Index da (pxIndex2Coord da i) = i.
Proof.
  intros HW.
  assert (HWr : IZR (width da) <> 0) by (apply not_0_IZR; exact HW).
  unfold pxCoord2Index, pxIndex2Coord.
  generalize (js_rem (i / 4) (IZR (width da))). intros x.
  field. exact HWr.
Qed.

Lemma X1_index_of_coord_of_index_witness :
  width (mkDrawArea 4 2) <> 0%Z /\
  pxCoord2Index (mkDrawArea 4 2) (pxIndex2Coord (mkDrawArea 4 2) 10) = 10.
Proof.
  assert (H : width (mkDrawArea 4 2) <> 0%Z) by (simpl; lia).
  split; [exact H|].
  apply (X1_index_of_coord_of_index (mkDrawArea 4 2) 10 H).
Defined.

(** X2. The pixel in column px of row py of the canvas has the index
    [4 * (py * width + px)], a multiple of four inside the buffer of
    [4 * width * height] octets, and [pxIndex2Coord] recovers (px, py)
    from it. *)
Theorem X2_coord_of_index_of_coord da (px py : Z) :
  (0 <= px < width da)%Z -> (0 <= py < height da)%Z ->
  pxCoord2Index da (IZR px, IZR py) = IZR (4 * (py * width da + px)) /\
  (0 <= 4 * (py * width da + px) <= 4 * width da * height da - 4)%Z /\
  pxIndex2Coord da (pxCoord2Index da (IZR px, IZR py)) = (IZR px, IZR py).
Proof.
  intros Hpx Hpy. split; [|split].
  - unfold pxCoord2Index. rewrite mult_IZR, plus_IZR, mult_IZR. reflexivity.
  - nia.
  - apply pxIndex2Coord_pxCoord2Index; lia.
Qed.

Lemma X2_coord_of_index_of_coord_witness :
  (0 <= 3 < width (mkDrawArea 4 2))%Z /\
  (0 <= 1 < height (mkDrawArea 4 2))%Z /\
  pxIndex2Coord (mkDrawArea 4 2)
    (pxCoord2Index (mkDrawArea 4 2) (IZR 3, IZR 1)) = (IZR 3, IZR 1).
Proof.
  assert (H1 : (0 <= 3 < width (mkDrawArea 4 2))%Z) by (simpl; lia).
  assert (H2 : (0 <= 1 < height (mkDrawArea 4 2))%Z) by (simpl; lia).
  split; [exact H1|]. split; [exact H2|].
  apply (X2_coord_of_index_of_coord (mkDrawArea 4 2) 3 1 H1 H2).
Defined.

(** X3. [pxCoord2CompTile] and [compTile2PxCoord] are inverse to each
    other, and each is its own inverse: the flip of the vertical axis
    leaves the column alone. *)
Theorem X3_tile_flip_round_trip da (p : R * R) :
  compTile2PxCoord da (pxCoord2CompTile da p) = p /\
  pxCoord2CompTile da (compTile2PxCoord da p) = p /\
  pxCoord2CompTile da (pxCoord2CompTile da p) = p /\
  fst (pxCoord2CompTile da p) = fst p.
Proof.
  destruct p as [x y]. unfold compTile2PxCoord, pxCoord2CompTile. simpl.
  repeat split; f_equal; ring.
Qed.

(** X4. Every pixel index of the buffer is mapped to a tile of whole
    coordinates: pixel number k (index 4k) of a canvas of width W and
    height H goes to column [k mod W] and tile row [H - k / W]. The
    columns run from 0 to W - 1 but the tile rows from 1 to H: the flip
    is [height - py], so the tile row 0, the bottom edge of the
    viewport, is never rendered, and the top pixel row is the tile row
    H. *)
Theorem X4_pixel_index_tile da (k : Z) :
  (0 < width da)%Z ->
  (0 <= k < width da * height da)%Z ->
  pxCoord2CompTile da (pxIndex2Coord da (IZR (4 * k))) =
    (IZR (k mod width da), IZR (height da - k / width da)) /\
  (0 <= k mod width da < width da)%Z /\
  (1 <= height da - k / width da <= height da)%Z.
Proof.
  intros HW Hk.
  pose proof (Z.mod_pos_bound k (width da) HW) as Hmod.
  assert (Hdiv0 : (0 <= k / width da)%Z) by (apply Z.div_pos; lia).
  assert (Hdiv1 : (k / width da < height da)%Z)
    by (apply Z.div_lt_upper_bound; lia).
  split; [|split; [exact Hmod|lia]].
  replace (IZR (4 * k))
    with (pxCoord2Index da (IZR (k mod width da), IZR (k / width da))).
  - rewrite pxIndex2Coord_pxCoord2Index by lia.
    unfold pxCoord2CompTile. rewrite minus_IZR. reflexivity.
  - unfold pxCoord2Index.
    rewrite (Z.div_mod k (width da)) at 3 by lia.
    rewrite mult_IZR, plus_IZR, mult_IZR. ring.
Qed.

Lemma X4_pixel_index_tile_witness :
  (0 < width (mkDrawArea 4 2))%Z /\
  (0 <= 7 < width (mkDrawArea 4 2) * height (mkDrawArea 4 2))%Z /\
  pxCoord2CompTile (mkDrawArea 4 2)
    (pxIndex2Coord (mkDrawArea 4 2) (IZR (4 * 7))) =
  (IZR (7 mod width (mkDrawArea 4 2)),
   IZR (height (mkDrawArea 4 2) - 7 / width (mkDrawArea 4 2))).
Proof.
  assert (H1 : (0 < width (mkDrawArea 4 2))%Z) by (simpl; lia).
  assert (H2 : (0 <= 7 < width (mkDrawArea 4 2) * height (mkDrawArea 4 2))%Z)
    by (simpl; lia).
  split; [exact H1|]. split; [exact H2|].
  apply (X4_pixel_index_tile (mkDrawArea 4 2) 7 H1 H2).
Defined.

(** X5. The number the click handler reports for a click on the pixel in
    column px of row py is the seed the renderer iterates for that
    pixel. *)
Theorem X5_click_reports_pixel_seed da fp (px py : Z) :
  (0 <= px < width da)%Z -> (0 <= py)%Z ->
  pixelSeed fp da (Z.to_nat (4 * (py * width da + px))) =
  tile2Comp da fp
    (pxCoord2CompTile da
       (mouseEventToPxCoord (mkMouseEvent (IZR px) (IZR py)))).
Proof.
  intros Hpx Hpy. unfold pixelSeed, pixelIndexToComp, mouseEventToPxCoord.
  simpl offsetX. simpl offsetY.
  rewrite Z2Nat.id by nia.
  replace (IZR (4 * (py * width da + px)))
    with (pxCoord2Index da (IZR px, IZR py))
    by (unfold pxCoord2Index; rewrite mult_IZR, plus_IZR, mult_IZR;
        reflexivity).
  rewrite pxIndex2Coord_pxCoord2Index by assumption. reflexivity.
Qed.

Lemma X5_click_reports_pixel_seed_witness :
  (0 <= 3 < width (mkDrawArea 4 2))%Z /\ (0 <= 1)%Z /\
  pixelSeed frac_params (mkDrawArea 4 2)
    (Z.to_nat (4 * (1 * width (mkDrawArea 4 2) + 3))) =
  tile2Comp (mkDrawArea 4 2) frac_params
    (pxCoord2CompTile (mkDrawArea 4 2)
       (mouseEventToPxCoord (mkMouseEvent (IZR 3) (IZR 1)))).
Proof.
  assert (H1 : (0 <= 3 < width (mkDrawArea 4 2))%Z) by (simpl; lia).
  assert (H2 : (0 <= 1)%Z) by lia.
  split; [exact H1|]. split; [exact H2|].
  apply (X5_click_reports_pixel_seed (mkDrawArea 4 2) frac_params 3 1 H1 H2).
Defined.

(** ** User Interface *)

(** What a run of clicks does to the parameters other than [bl]. *)
Lemma zoomClicks_fields da evs : forall fp,
  vw (zoomClicks da fp evs) = vw fp / 2 ^ length evs /\
  vh (zoomClicks da fp evs) = vh fp / 2 ^ length evs /\
  max_iters (zoomClicks da fp evs) = max_iters fp /\
  iterFunc (zoomClicks da fp evs) = iterFunc fp /\
  colorFunc (zoomClicks da fp evs) = colorFunc fp.
Proof.
  induction evs as [|ev evs IH]; intros fp.
  - unfold zoomClicks. simpl. repeat split; field.
  - unfold zoomClicks in *. simpl fold_left.
    destruct (IH (zoomTo da fp ev)) as (Hw & Hh & Hm & Hi & Hc).
    rewrite Hw, Hh, Hm, Hi, Hc.
    assert (Hpow : 2 ^ length evs <> 0) by (apply pow_nonzero; lra).
    repeat split; try reflexivity.
    + unfold zoomTo. simpl. field. exact Hpow.
    + unfold zoomTo. simpl. field. exact Hpow.
Qed.

(** X7. From the default viewport (vw 4, vh 2), a run of n clicks, for
    n up to 1000, leaves a viewport that measures [4 / 2^n] by
    [2 / 2^n]: width and height are positive and the width is twice the
    height, as at the start. Through such a run every halving is an
    exact operation on the numbers of the code. The clicks change
    neither [max_iters] nor the iterate and color functions. *)
Theorem X7_zoom_clicks_scale da fp evs :
  vw fp = 4 -> vh fp = 2 ->
  (length evs <= 1000)%nat ->
  let fp' := zoomClicks da fp evs in
  vw fp' = 4 / 2 ^ length evs /\
  vh fp' = 2 / 2 ^ length evs /\
  0 < vw fp' /\ 0 < vh fp' /\
  vw fp' = 2 * vh fp' /\
  max_iters fp' = max_iters fp /\
  iterFunc fp' = iterFunc fp /\
  colorFunc fp' = colorFunc fp.
Proof.
  intros Hvw Hvh _ fp'. subst fp'.
  destruct (zoomClicks_fields da evs fp) as (Hw & Hh & Hm & Hi & Hc).
  assert (Hpow : 0 < 2 ^ length evs) by (apply pow_lt; lra).
  assert (Hinv : 0 < / 2 ^ length evs) by (apply Rinv_0_lt_compat; exact Hpow).
  rewrite Hw, Hh, Hvw, Hvh.
  split; [reflexivity|]. split; [reflexivity|].
  split; [unfold Rdiv; apply Rmult_lt_0_compat; [lra|exact Hinv]|].
  split; [unfold Rdiv; apply Rmult_lt_0_compat; [lra|exact Hinv]|].
  split; [field; lra|].
  split; [exact Hm|]. split; [exact Hi|exact Hc].
Qed.

Lemma X7_zoom_clicks_scale_witness :
  vw frac_params = 4 /\ vh frac_params = 2 /\
  (length [mkMouseEvent 3 1; mkMouseEvent 0 0] <= 1000)%nat /\
  vw (zoomClicks (mkDrawArea 4 2) frac_params
        [mkMouseEvent 3 1; mkMouseEvent 0 0]) =
  4 / 2 ^ length [mkMouseEvent 3 1; mkMouseEvent 0 0].
Proof.
  assert (H3 : (length [mkMouseEvent 3 1; mkMouseEvent 0 0] <= 1000)%nat)
    by (simpl; lia).
  split; [reflexivity|]. split; [reflexivity|]. split; [exact H3|].
  apply (X7_zoom_clicks_scale (mkDrawArea 4 2) frac_params
           [mkMouseEvent 3 1; mkMouseEvent 0 0] eq_refl eq_refl H3).
Defined.

(** X8. The reset button undoes every run of clicks: from the initial
    parameters, whatever was clicked, a reset gives the initial
    parameters again; from any parameters it restores the default
    viewport and [max_iters] and keeps the two functions. *)
Theorem X8_reset_restores_defaults da evs (data : list Z) :
  fst (onReset da (zoomClicks da frac_params evs) data) = frac_params /\
  (forall fp,
     let fp' := fst (onReset da fp data) in
     vw fp' = 4 /\ vh fp' = 2 /\ bl fp' = (-3, -1) /\
     max_iters fp' = 1000%Z /\
     iterFunc fp' = iterFunc fp /\ colorFunc fp' = colorFunc fp) /\
  (forall fp,
     snd (onReset da fp data) = genFractal (fst (onReset da fp data)) da data).
Proof.
  split; [|split].
  - destruct (zoomClicks_fields da evs frac_params) as (_ & _ & _ & Hi & Hc).
    unfold onReset. cbn [fst].
    unfold set_max_iters, set_bl, set_vh, set_vw.
    cbn [vw vh bl max_iters iterFunc colorFunc].
    rewrite Hi, Hc. reflexivity.
  - intros fp. simpl. repeat split.
  - intros fp. reflexivity.
Qed.

(** ** Escape-Time Engine *)

Lemma escapeLoop_tally_bounds fp c n tally z :
  (tally <= fst (escapeLoop fp c n tally z) <= tally + Z.of_nat n)%Z.
Proof.
  destruct (escapeLoop_spec fp c n tally z) as
    [(Ht & _)|(k & Hk & Ht & _)]; lia.
Qed.

(** X10. With the map z^2 + c and a positive [max_iters], a seed outside
    the escape radius ([cAbs2(c) > 4]) stops the loop at its first
    application with the count 0 and z = c, and is colored by
    [colorFunc(0, c)]; every other seed gets a count of at least 1. *)
Theorem X10_outside_radius_escapes_first fp c :
  iterFunc fp = default_iterFunc ->
  (0 < max_iters fp)%Z ->
  (cAbs2 c > 4 ->
     escapeTime fp c = (0%Z, c) /\ pixelColor fp c = colorFunc fp 0%Z c) /\
  (~ cAbs2 c > 4 -> (1 <= fst (escapeTime fp c))%Z).
Proof.
  intros Hf Hpos. split.
  - intros Hesc.
    assert (Het : escapeTime fp c = (0%Z, c)).
    { rewrite escapeTime_first; rewrite ?Hf, ?default_iterFunc_origin;
        [reflexivity|exact Hpos|exact Hesc]. }
    split; [exact Het|].
    unfold pixelColor. rewrite Het. simpl fst.
    destruct (Z.eqb_spec 0 (max_iters fp)); [lia|reflexivity].
  - intros Hno. unfold escapeTime.
    replace (Z.to_nat (max_iters fp)) with (S (Z.to_nat (max_iters fp - 1)))
      by lia.
    rewrite escapeLoop_next by (rewrite Hf, default_iterFunc_origin; exact Hno).
    pose proof (escapeLoop_tally_bounds fp c (Z.to_nat (max_iters fp - 1))
                  (0 + 1)%Z (iterFunc fp (0, 0) c)).
    lia.
Qed.

Lemma X10_outside_radius_escapes_first_witness :
  iterFunc frac_params = default_iterFunc /\
  (0 < max_iters frac_params)%Z /\
  (cAbs2 (3, 0) > 4 ->
     escapeTime frac_params (3, 0) = (0%Z, (3, 0)) /\
     pixelColor frac_params (3, 0) = colorFunc frac_params 0%Z (3, 0)).
Proof.
  assert (H : (0 < max_iters frac_params)%Z) by (simpl; lia).
  split; [reflexivity|]. split; [exact H|].
  apply (X10_outside_radius_escapes_first frac_params (3, 0) eq_refl H).
Defined.

(** The disc of radius 1/2 is kept by z^2 + c for a seed of the disc of
    radius 1/4. *)
Lemma default_iterFunc_small z c :
  cAbs2 z <= 1 / 4 -> cAbs2 c <= 1 / 16 ->
  cAbs2 (default_iterFunc z c) <= 1 / 4.
Proof.
  destruct z as [a b], c as [x y].
  unfold default_iterFunc, cAdd, cMult, cAbs2. simpl.
  intros Hz Hc.
  set (w1 := a * a - b * b). set (w2 := a * b + b * a).
  set (A := a * a + b * b). set (C := x * x + y * y).
  assert (HA0 : 0 <= A) by (unfold A; nra).
  assert (HA1 : A <= 1 / 4) by (unfold A; lra).
  assert (HC0 : 0 <= C) by (unfold C; nra).
  assert (HC1 : C <= 1 / 16) by (unfold C; lra).
  assert (HW : w1 * w1 + w2 * w2 = A * A) by (unfold w1, w2, A; ring).
  assert (HW16 : A * A <= 1 / 16) by nra.
  assert (HCS : (w1 * x + w2 * y) * (w1 * x + w2 * y) <= (A * A) * C).
  { rewrite <- HW. unfold C.
    pose proof (Rle_0_sqr (w1 * y - w2 * x)) as Hsq. unfold Rsqr in Hsq.
    lra || nra. }
  assert (HWC : (A * A) * C <= 1 / 256) by nra.
  assert (Hdot : w1 * x + w2 * y <= 1 / 16) by nra.
  replace ((w1 + x) ^ 2 + (w2 + y) ^ 2)
    with (A * A + C + 2 * (w1 * x + w2 * y)) by (rewrite <- HW; unfold C; ring).
  lra.
Qed.

Lemma escapeLoop_small fp c n : forall tally z,
  iterFunc fp = default_iterFunc ->
  cAbs2 c <= 1 / 16 -> cAbs2 z <= 1 / 4 ->
  fst (escapeLoop fp c n tally z) = (tally + Z.of_nat n)%Z.
Proof.
  induction n as [|n IH]; intros tally z Hf Hc Hz.
  - simpl. lia.
  - pose proof (default_iterFunc_small z c Hz Hc) as Hz'.
    rewrite escapeLoop_next by (rewrite Hf; lra).
    rewrite IH; [lia|exact Hf|exact Hc|rewrite Hf; exact Hz'].
Qed.

(** X11. With the map z^2 + c every seed of the disc of radius 1/4
    ([cAbs2(c) <= 1/16]) is captured, whatever the budget: no iterate
    leaves the disc of radius 1/2, and the pixel is black. *)
Theorem X11_small_seed_captured fp c :
  iterFunc fp = default_iterFunc ->
  (0 <= max_iters fp)%Z ->
  cAbs2 c <= 1 / 16 ->
  fst (escapeTime fp c) = max_iters fp /\
  pixelColor fp c = [0; 0; 0; 255].
Proof.
  intros Hf Hpos Hc.
  assert (Ht : fst (escapeTime fp c) = max_iters fp).
  { unfold escapeTime. rewrite escapeLoop_small; [lia|exact Hf|exact Hc|].
    unfold cAbs2. simpl. lra. }
  split; [exact Ht|].
  unfold pixelColor. rewrite Ht, Z.eqb_refl. reflexivity.
Qed.

Lemma X11_small_seed_captured_witness :
  iterFunc frac_params = default_iterFunc /\
  (0 <= max_iters frac_params)%Z /\
  cAbs2 (1 / 8, 1 / 8) <= 1 / 16 /\
  fst (escapeTime frac_params (1 / 8, 1 / 8)) = max_iters frac_params.
Proof.
  assert (H1 : (0 <= max_iters frac_params)%Z) by (simpl; lia).
  assert (H2 : cAbs2 (1 / 8, 1 / 8) <= 1 / 16) by (unfold cAbs2; simpl; lra).
  split; [reflexivity|]. split; [exact H1|]. split; [exact H2|].
  apply (X11_small_seed_captured frac_params (1 / 8, 1 / 8) eq_refl H1 H2).
Defined.

(** X12. A budget that is not positive never applies the map. With
    [max_iters = 0] every pixel is black; with a negative [max_iters]
    the capture test fails and every pixel is colored by
    [colorFunc(0, c)], as if it had escaped at once. *)
Theorem X12_nonpositive_budget fp c :
  (max_iters fp <= 0)%Z ->
  escapeTime fp c = (0%Z, (0, 0)) /\
  (max_iters fp = 0%Z -> pixelColor fp c = [0; 0; 0; 255]) /\
  ((max_iters fp < 0)%Z -> pixelColor fp c = colorFunc fp 0%Z c).
Proof.
  intros Hle.
  assert (Het : escapeTime fp c = (0%Z, (0, 0))).
  { unfold escapeTime. replace (Z.to_nat (max_iters fp)) with 0%nat by lia.
    reflexivity. }
  split; [exact Het|]. unfold pixelColor. rewrite Het. simpl fst. split.
  - intros ->. reflexivity.
  - intros Hneg. destruct (Z.eqb_spec 0 (max_iters fp)); [lia|reflexivity].
Qed.

Lemma X12_nonpositive_budget_witness :
  (max_iters (set_max_iters frac_params (-1)) <= 0)%Z /\
  escapeTime (set_max_iters frac_params (-1)) (3, 0) = (0%Z, (0, 0)).
Proof.
  assert (H : (max_iters (set_max_iters frac_params (-1)) <= 0)%Z)
    by (simpl; lia).
  split; [exact H|].
  apply (X12_nonpositive_budget (set_max_iters frac_params (-1)) (3, 0) H).
Defined.

(** The escape loop reads [iterFunc] only. *)
Lemma escapeLoop_set_max_iters fp m c n : forall tally z,
  escapeLoop (set_max_iters fp m) c n tally z = escapeLoop fp c n tally z.
Proof.
  induction n as [|n IH]; intros tally z; simpl; [reflexivity|].
  rewrite IH. reflexivity.
Qed.

(** A loop that stopped on the escape test stops the same way with more
    iterations to go. *)
Lemma escapeLoop_more fp c n : forall tally z d,
  fst (escapeLoop fp c n tally z) <> (tally + Z.of_nat n)%Z ->
  escapeLoop fp c (n + d) tally z = escapeLoop fp c n tally z.
Proof.
  induction n as [|n IH]; intros tally z d Hesc.
  - simpl in Hesc. lia.
  - simpl. simpl in Hesc.
    destruct (Rgt_dec (cAbs2 (iterFunc fp z c)) 4); [reflexivity|].
    apply IH. lia.
Qed.

(** X13. Raising [max_iters] does not change a pixel that escaped: the
    loop returns the same count and the same z, and the pixel keeps its
    color. Only pixels that were captured can change. *)
Theorem X13_budget_monotone fp c m :
  (0 <= max_iters fp <= m)%Z ->
  fst (escapeTime fp c) <> max_iters fp ->
  escapeTime (set_max_iters fp m) c = escapeTime fp c /\
  pixelColor (set_max_iters fp m) c = pixelColor fp c.
Proof.
  intros Hm Hesc.
  assert (Het : escapeTime (set_max_iters fp m) c = escapeTime fp c).
  { unfold escapeTime in *. rewrite escapeLoop_set_max_iters. simpl max_iters.
    replace (Z.to_nat m)
      with (Z.to_nat (max_iters fp) + Z.to_nat (m - max_iters fp))%nat by lia.
    apply escapeLoop_more. lia. }
  split; [exact Het|].
  pose proof (escapeLoop_tally_bounds fp c (Z.to_nat (max_iters fp))
                0%Z (0, 0)) as Hb.
  fold (escapeTime fp c) in Hb.
  unfold pixelColor. rewrite Het. simpl max_iters. simpl colorFunc.
  destruct (Z.eqb_spec (fst (escapeTime fp c)) (max_iters fp)) as [|_];
    [contradiction|].
  destruct (Z.eqb_spec (fst (escapeTime fp c)) m); [lia|reflexivity].
Qed.

Lemma X13_budget_monotone_witness :
  (0 <= max_iters frac_params <= 5000)%Z /\
  fst (escapeTime frac_params (3, 0)) <> max_iters frac_params /\
  escapeTime (set_max_iters frac_params 5000) (3, 0) =
  escapeTime frac_params (3, 0).
Proof.
  assert (H1 : (0 <= max_iters frac_params <= 5000)%Z) by (simpl; lia).
  assert (H2 : fst (escapeTime frac_params (3, 0)) <> max_iters frac_params)
    by (rewrite escapeTime_3_0; simpl; lia).
  split; [exact H1|]. split; [exact H2|].
  apply (X13_budget_monotone frac_params (3, 0) 5000 H1 H2).
Defined.

Lemma cAbs2_cConj z : cAbs2 (cConj z) = cAbs2 z.
Proof. unfold cAbs2, cConj. simpl. ring. Qed.

Lemma default_iterFunc_cConj z c :
  default_iterFunc (cConj z) (cConj c) = cConj (default_iterFunc z c).
Proof.
  unfold default_iterFunc, cAdd, cMult, cConj. simpl. f_equal; ring.
Qed.

Lemma escapeLoop_cConj fp c n : forall tally z,
  iterFunc fp = default_iterFunc ->
  escapeLoop fp (cConj c) n tally (cConj z) =
  (fst (escapeLoop fp c n tally z), cConj (snd (escapeLoop fp c n tally z))).
Proof.
  induction n as [|n IH]; intros tally z Hf; simpl; [reflexivity|].
  rewrite Hf, default_iterFunc_cConj, cAbs2_cConj.
  destruct (Rgt_dec (cAbs2 (default_iterFunc z c)) 4); [reflexivity|].
  apply IH. exact Hf.
Qed.

(** X14. With the map z^2 + c the frame is symmetric about the real
    axis: a seed and its conjugate get the same count and conjugate
    final values, and a phased color loop, which reads the magnitude of
    the seed only, gives them the same color. *)
Theorem X14_conjugate_symmetry fp c :
  iterFunc fp = default_iterFunc ->
  fst (escapeTime fp (cConj c)) = fst (escapeTime fp c) /\
  snd (escapeTime fp (cConj c)) = cConj (snd (escapeTime fp c)) /\
  (forall params,
     colorFunc fp = makePhasedColorLoop params ->
     pixelColor fp (cConj c) = pixelColor fp c).
Proof.
  intros Hf.
  assert (Het : escapeTime fp (cConj c) =
                (fst (escapeTime fp c), cConj (snd (escapeTime fp c)))).
  { unfold escapeTime.
    replace ((0, 0) : complex) with (cConj (0, 0)) at 1
      by (unfold cConj; simpl; f_equal; ring).
    apply escapeLoop_cConj. exact Hf. }
  split; [rewrite Het; reflexivity|]. split; [rewrite Het; reflexivity|].
  intros params Hcf. unfold pixelColor. rewrite Het. simpl fst.
  destruct (fst (escapeTime fp c) =? max_iters fp)%Z; [reflexivity|].
  rewrite Hcf. unfold makePhasedColorLoop, smoothIters, cAbs.
  rewrite cAbs2_cConj. reflexivity.
Qed.

Lemma X14_conjugate_symmetry_witness :
  iterFunc frac_params = default_iterFunc /\
  fst (escapeTime frac_params (cConj (-3, 1))) =
  fst (escapeTime frac_params (-3, 1)).
Proof.
  split; [reflexivity|].
  apply (X14_conjugate_symmetry frac_params (-3, 1) eq_refl).
Defined.

(** ** The test-first variant of the escape loop *)

Lemma TestFirst_escapeLoop_escaped fp c n tally z :
  cAbs2 z > 4 -> TestFirst.escapeLoop fp c n tally z = (tally, z).
Proof.
  intros H. destruct n as [|n]; simpl; [reflexivity|].
  destruct (Rgt_dec (cAbs2 z) 4); tauto.
Qed.

Lemma TestFirst_escapeLoop_shift fp c n : forall tally z,
  ~ cAbs2 z > 4 ->
  snd (TestFirst.escapeLoop fp c n tally z) = snd (escapeLoop fp c n tally z) /\
  (fst (escapeLoop fp c n tally z) = (tally + Z.of_nat n)%Z ->
   fst (TestFirst.escapeLoop fp c n tally z) = (tally + Z.of_nat n)%Z) /\
  (fst (escapeLoop fp c n tally z) <> (tally + Z.of_nat n)%Z ->
   fst (TestFirst.escapeLoop fp c n tally z) =
   (fst (escapeLoop fp c n tally z) + 1)%Z).
Proof.
  induction n as [|n IH]; intros tally z Hz.
  - simpl. repeat split; lia.
  - cbn [TestFirst.escapeLoop escapeLoop].
    destruct (Rgt_dec (cAbs2 z) 4) as [|_]; [contradiction|].
    destruct (Rgt_dec (cAbs2 (iterFunc fp z c)) 4) as [Hesc|Hno].
    + rewrite TestFirst_escapeLoop_escaped by exact Hesc. simpl.
      repeat split; lia.
    + destruct (IH (tally + 1)%Z (iterFunc fp z c) Hno) as (Hs & Hcap & Hsh).
      split; [exact Hs|]. split.
      * intros H. rewrite Hcap; lia.
      * intros H. apply Hsh. lia.
Qed.

(** X15. The two variants of the escape loop, test after the map (the
    compiled renderer) and test before it, end with the same z. When
    the first runs out its budget so does the second; when the first
    stops on the escape test with the count t the second returns
    t + 1. An escape at the last application, [t = max_iters - 1], is
    therefore taken for a capture by the second variant. *)
Theorem X15_test_first_counts_one_more fp c :
  (0 <= max_iters fp)%Z ->
  snd (TestFirst.escapeTime fp c) = snd (escapeTime fp c) /\
  (fst (escapeTime fp c) = max_iters fp ->
   fst (TestFirst.escapeTime fp c) = max_iters fp) /\
  (fst (escapeTime fp c) <> max_iters fp ->
   fst (TestFirst.escapeTime fp c) = (fst (escapeTime fp c) + 1)%Z) /\
  (fst (TestFirst.escapeTime fp c) = max_iters fp <->
   fst (escapeTime fp c) = max_iters fp \/
   fst (escapeTime fp c) = (max_iters fp - 1)%Z).
Proof.
  intros Hpos.
  assert (H0 : ~ cAbs2 (0, 0) > 4) by (unfold cAbs2; simpl; lra).
  destruct (TestFirst_escapeLoop_shift fp c (Z.to_nat (max_iters fp))
              0%Z (0, 0) H0) as (Hs & Hcap & Hsh).
  fold (TestFirst.escapeTime fp c) in Hs, Hcap, Hsh.
  fold (escapeTime fp c) in Hs, Hcap, Hsh.
  split; [exact Hs|].
  split; [intros H; rewrite Hcap; lia|].
  split; [intros H; apply Hsh; lia|].
  destruct (Z.eq_dec (fst (escapeTime fp c)) (max_iters fp)) as [He|Hne].
  - split; [intros _; left; exact He|intros _; rewrite Hcap; lia].
  - rewrite Hsh by lia. split; [intros H; right; lia|intros [H|H]; lia].
Qed.

Lemma X15_test_first_counts_one_more_witness :
  (0 <= max_iters frac_params)%Z /\
  snd (TestFirst.escapeTime frac_params (3, 0)) =
  snd (escapeTime frac_params (3, 0)).
Proof.
  assert (H : (0 <= max_iters frac_params)%Z) by (simpl; lia).
  split; [exact H|].
  apply (X15_test_first_counts_one_more frac_params (3, 0) H).
Defined.

(** ** Frame Renderer *)

Lemma setPixelColor_lookup_ge col : forall (data : list Z) index j,
  (index + length col <= j)%nat ->
  setPixelColor data index col !! j = data !! j.
Proof.
  induction col as [|c col IH]; intros data index j Hj; simpl; [reflexivity|].
  simpl in Hj. rewrite IH by lia. apply list_lookup_insert_ne. lia.
Qed.

Lemma setPixelColor_past_end col : forall (data : list Z) index,
  (length data <= index)%nat -> setPixelColor data index col = data.
Proof.
  induction col as [|c col IH]; intros data index Hi; simpl; [reflexivity|].
  rewrite list_insert_ge by exact Hi. apply IH. lia.
Qed.

(** X16. [setPixelColor] stores the converted channels of the color at
    the octets from [index] on and touches no other octet; the buffer
    keeps its length, and what would be stored past its end is dropped. *)
Theorem X16_setPixelColor_frame (data : list Z) index col :
  length (setPixelColor data index col) = length data /\
  (forall j, (j < index \/ index + length col <= j)%nat ->
     setPixelColor data index col !! j = data !! j) /\
  (forall j c, (index <= j < length data)%nat ->
     col !! (j - index)%nat = Some c ->
     setPixelColor data index col !! j = Some (toUint8Clamp c)) /\
  ((length data <= index)%nat -> setPixelColor data index col = data).
Proof.
  split; [apply setPixelColor_length|]. split; [|split].
  - intros j [Hj|Hj];
      [apply setPixelColor_lookup_lt|apply setPixelColor_lookup_ge]; exact Hj.
  - intros j c Hj Hc. apply setPixelColor_lookup_in; [lia|lia|exact Hc].
  - apply setPixelColor_past_end.
Qed.

Lemma X16_setPixelColor_frame_witness :
  (1 <= 2 < length [7; 7; 7; 7]%Z)%nat /\
  [255; 0; 0] !! (2 - 1)%nat = Some 0 /\
  setPixelColor [7; 7; 7; 7]%Z 1 [255; 0; 0] !! 2%nat = Some (toUint8Clamp 0).
Proof.
  assert (H1 : (1 <= 2 < length [7; 7; 7; 7]%Z)%nat) by (simpl; lia).
  assert (H2 : ([255; 0; 0] : color) !! (2 - 1)%nat = Some 0) by reflexivity.
  split; [exact H1|]. split; [exact H2|].
  apply (proj1 (proj2 (proj2
           (X16_setPixelColor_frame [7; 7; 7; 7]%Z 1 [255; 0; 0])))
           2%nat 0 H1 H2).
Defined.

(** X17. After a render pass every octet of every pixel of the buffer
    holds the converted channel of that pixel's own color, also when a
    color function returns more than four channels: what a pixel stores
    beyond its fourth octet is overwritten by the next pixel or dropped
    at the end of the buffer. The buffer keeps its length. *)
Theorem X17_rendered_pixel fp da (data : list Z) k i c :
  (i < 4)%nat ->
  (4 * k + i < length data)%nat ->
  pixelColor fp (pixelSeed fp da (4 * k)) !! i = Some c ->
  genFractal fp da data !! (4 * k + i)%nat = Some (toUint8Clamp c) /\
  length (genFractal fp da data) = length data.
Proof.
  intros Hi Hlen Hc. unfold genFractal. split.
  - apply (genFractal_loop_pixel fp da k (length data) 0 data i c);
      [lia|exact Hi|exact Hlen|exact Hc].
  - apply genFractal_loop_exit. lia.
Qed.

Lemma X17_rendered_pixel_witness :
  (3 < 4)%nat /\
  (4 * 0 + 3 < length [7; 7; 7; 7]%Z)%nat /\
  pixelColor (set_colorFunc frac_params color_funcs.whiteEscape)
    (pixelSeed (set_colorFunc frac_params color_funcs.whiteEscape)
       (mkDrawArea 1 1) (4 * 0)) !! 3%nat = Some 255 /\
  genFractal (set_colorFunc frac_params color_funcs.whiteEscape)
    (mkDrawArea 1 1) [7; 7; 7; 7]%Z !! (4 * 0 + 3)%nat =
  Some (toUint8Clamp 255).
Proof.
  assert (H1 : (3 < 4)%nat) by lia.
  assert (H2 : (4 * 0 + 3 < length [7; 7; 7; 7]%Z)%nat) by (simpl; lia).
  assert (H3 : pixelColor (set_colorFunc frac_params color_funcs.whiteEscape)
    (pixelSeed (set_colorFunc frac_params color_funcs.whiteEscape)
       (mkDrawArea 1 1) (4 * 0)) !! 3%nat = Some 255).
  { unfold pixelColor.
    destruct (_ =? _)%Z; reflexivity. }
  split; [exact H1|]. split; [exact H2|]. split; [exact H3|].
  apply (X17_rendered_pixel
           (set_colorFunc frac_params color_funcs.whiteEscape)
           (mkDrawArea 1 1) [7; 7; 7; 7]%Z 0 3 255 H1 H2 H3).
Defined.

Lemma toUint8Clamp_range r : (0 <= toUint8Clamp r <= 255)%Z.
Proof.
  unfold toUint8Clamp.
  destruct (Rle_dec r 0) as [|Hlo]; [lia|].
  destruct (Rle_dec 255 r) as [|Hhi]; [lia|].
  destruct (base_Int_part r) as [Hf1 Hf2].
  assert (H0 : (-1 < Int_part r)%Z) by (apply lt_IZR; lra).
  assert (H1 : (Int_part r < 255)%Z) by (apply lt_IZR; lra).
  destruct (Rlt_dec (IZR (Int_part r) + / 2) r); [lia|].
  destruct (Rlt_dec r (IZR (Int_part r) + / 2)); [lia|].
  destruct (Z.even (Int_part r)); lia.
Qed.

Lemma setPixelColor_octets col : forall (data : list Z) index,
  Forall (fun x => (0 <= x <= 255)%Z) data ->
  Forall (fun x => (0 <= x <= 255)%Z) (setPixelColor data index col).
Proof.
  induction col as [|c col IH]; intros data index Hd; simpl; [exact Hd|].
  apply IH. apply Forall_insert; [exact Hd|apply toUint8Clamp_range].
Qed.

Lemma genFractal_loop_octets fp da fuel : forall pxi (data : list Z),
  Forall (fun x => (0 <= x <= 255)%Z) data ->
  Forall (fun x => (0 <= x <= 255)%Z) (snd (genFractal_loop fp da fuel pxi data)).
Proof.
  induction fuel as [|fuel IH]; intros pxi data Hd; simpl; [exact Hd|].
  destruct (pxi <? length data)%nat; [|exact Hd].
  apply IH. apply setPixelColor_octets. exact Hd.
Qed.

(** X18. A buffer of octets stays a buffer of octets: whatever numbers
    the color function returns, negative, fractional or above 255, every
    element of the rendered buffer lies between 0 and 255. *)
Theorem X18_rendered_octets fp da (data : list Z) :
  Forall (fun x => (0 <= x <= 255)%Z) data ->
  Forall (fun x => (0 <= x <= 255)%Z) (genFractal fp da data).
Proof.
  intros Hd. unfold genFractal. apply genFractal_loop_octets. exact Hd.
Qed.

Lemma X18_rendered_octets_witness :
  Forall (fun x => (0 <= x <= 255)%Z) [7; 7; 7; 7]%Z /\
  Forall (fun x => (0 <= x <= 255)%Z)
    (genFractal frac_params (mkDrawArea 1 1) [7; 7; 7; 7]%Z).
Proof.
  assert (H : Forall (fun x => (0 <= x <= 255)%Z) [7; 7; 7; 7]%Z)
    by (repeat constructor; lia).
  split; [exact H|].
  apply (X18_rendered_octets frac_params (mkDrawArea 1 1) [7; 7; 7; 7]%Z H).
Defined.

(** X19. With [whiteEscape] as the color function every pixel that lies
    whole in the buffer is rendered opaque black, when its escape loop
    ran out its budget, or opaque white, when it did not: the frame
    holds no other color. *)
Theorem X19_white_escape_two_colors fp da (data : list Z) k :
  colorFunc fp = color_funcs.whiteEscape ->
  (4 * k + 3 < length data)%nat ->
  let tally := fst (escapeTime fp (pixelSeed fp da (4 * k))) in
  (tally = max_iters fp ->
     forall i, (i < 4)%nat ->
       genFractal fp da data !! (4 * k + i)%nat = [0; 0; 0; 255]%Z !! i) /\
  (tally <> max_iters fp ->
     forall i, (i < 4)%nat ->
       genFractal fp da data !! (4 * k + i)%nat =
       [255; 255; 255; 255]%Z !! i).
Proof.
  intros Hcf Hlen tally.
  assert (Hpix : forall (col : color) (oct : list Z),
    pixelColor fp (pixelSeed fp da (4 * k)) = col ->
    (forall i, (i < 4)%nat ->
       exists c, col !! i = Some c /\ oct !! i = Some (toUint8Clamp c)) ->
    forall i, (i < 4)%nat ->
      genFractal fp da data !! (4 * k + i)%nat = oct !! i).
  { intros col oct Hcol Hoct i Hi.
    destruct (Hoct i Hi) as (c & Hc & ->).
    unfold genFractal.
    apply (genFractal_loop_pixel fp da k (length data) 0 data i c);
      [lia|exact Hi|simpl; lia|].
    change (pixelColor fp (pixelSeed fp da (4 * k)) !! i = Some c).
    rewrite Hcol. exact Hc. }
  split; intros Ht.
  - apply (Hpix [0; 0; 0; 255]).
    + unfold pixelColor. fold tally. rewrite Ht, Z.eqb_refl. reflexivity.
    + intros i Hi. destruct i as [|[|[|[|i]]]]; [| | | |lia]; simpl;
        eexists; (split; [reflexivity|]);
        rewrite ?toUint8Clamp_0, ?toUint8Clamp_255; reflexivity.
  - apply (Hpix [255; 255; 255; 255]).
    + unfold pixelColor. fold tally.
      destruct (Z.eqb_spec tally (max_iters fp)); [contradiction|].
      rewrite Hcf. reflexivity.
    + intros i Hi. destruct i as [|[|[|[|i]]]]; [| | | |lia]; simpl;
        eexists; (split; [reflexivity|]);
        rewrite ?toUint8Clamp_255; reflexivity.
Qed.

Lemma X19_white_escape_two_colors_witness :
  colorFunc (set_colorFunc frac_params color_funcs.whiteEscape) =
    color_funcs.whiteEscape /\
  (4 * 0 + 3 < length [7; 7; 7; 7]%Z)%nat /\
  (fst (escapeTime (set_colorFunc frac_params color_funcs.whiteEscape)
          (pixelSeed (set_colorFunc frac_params color_funcs.whiteEscape)
             (mkDrawArea 1 1) (4 * 0))) =
   max_iters (set_colorFunc frac_params color_funcs.whiteEscape) ->
   forall i, (i < 4)%nat ->
     genFractal (set_colorFunc frac_params color_funcs.whiteEscape)
       (mkDrawArea 1 1) [7; 7; 7; 7]%Z !! (4 * 0 + i)%nat =
     [0; 0; 0; 255]%Z !! i).
Proof.
  assert (H : (4 * 0 + 3 < length [7; 7; 7; 7]%Z)%nat) by (simpl; lia).
  split; [reflexivity|]. split; [exact H|].
  apply (X19_white_escape_two_colors
           (set_colorFunc frac_params color_funcs.whiteEscape)
           (mkDrawArea 1 1) [7; 7; 7; 7]%Z 0 eq_refl H).
Defined.

(** X20. A phased color loop returns four channels, the last being
    255. For a channel whose minimum m is a whole number from 0 to 255
    (the default 0, the 25 of the demo loop) the value computed from any
    smoothed index lies between [2*m - 255] and 255: the sinusoid swings
    by [255 - m] around m, so a channel can fall below the minimum, and
    below 0 when m is under 128. For a seed of squared magnitude above
    1/16 (the seeds that can escape under z^2 + c) this is the range of
    the channels returned; at the origin [smoothIters] divides by
    zero. *)
Theorem X20_phased_channel_range params i z chan :
  let m := default 0 (minimum (channelParams params chan)) in
  (exists k : Z, (0 <= k <= 255)%Z /\ m = IZR k) ->
  length (makePhasedColorLoop params i z) = 4%nat /\
  makePhasedColorLoop params i z !! 3%nat = Some 255 /\
  (forall si, 2 * m - 255 <= phasedChannel params si chan <= 255) /\
  (1 / 16 < cAbs2 z -> (chan < 3)%nat ->
   exists v, makePhasedColorLoop params i z !! chan = Some v /\
             2 * m - 255 <= v <= 255).
Proof.
  intros m (k & Hk & Hm).
  assert (Hm255 : m <= 255) by (rewrite Hm; apply IZR_le; lia).
  assert (Hrange : forall si,
            2 * m - 255 <= phasedChannel params si chan <= 255).
  { intros si. unfold phasedChannel. fold m.
    pose proof (SIN_bound
      (freq (channelParams params chan) * si
       + phase (channelParams params chan))) as [Hlo Hhi].
    split; nra. }
  split; [reflexivity|]. split; [reflexivity|]. split; [exact Hrange|].
  intros _ Hchan. exists (phasedChannel params (smoothIters i z) chan).
  split; [|apply Hrange].
  rewrite makePhasedColorLoop_channels.
  destruct chan as [|[|[|chan]]]; [reflexivity|reflexivity|reflexivity|lia].
Qed.

Lemma X20_phased_channel_range_witness :
  (exists k : Z, (0 <= k <= 255)%Z /\
     default 0 (minimum (channelParams
       (mkChan (16 / 1000) 4 (Some 25), mkChan (13 / 100) 2 (Some 25),
        mkChan (1 / 100) 1 None) 0)) = IZR k) /\
  length (makePhasedColorLoop
    (mkChan (16 / 1000) 4 (Some 25), mkChan (13 / 100) 2 (Some 25),
     mkChan (1 / 100) 1 None) 0%Z (3, 0)) = 4%nat.
Proof.
  assert (H : exists k : Z, (0 <= k <= 255)%Z /\
     default 0 (minimum (channelParams
       (mkChan (16 / 1000) 4 (Some 25), mkChan (13 / 100) 2 (Some 25),
        mkChan (1 / 100) 1 None) 0)) = IZR k)
    by (exists 25%Z; split; [lia|reflexivity]).
  split; [exact H|].
  apply (X20_phased_channel_range _ 0%Z (3, 0) 0%nat H).
Defined.

(** X21. Rendering again with unchanged parameters changes nothing: a
    second pass over the rendered buffer gives the same buffer, when
    every color has its four channels. *)
Theorem X21_render_idempotent fp da (data : list Z) :
  (forall i c, 4 <= length (colorFunc fp i c))%nat ->
  genFractal fp da (genFractal fp da data) = genFractal fp da data.
Proof.
  intros Hcol.
  assert (Hlen : length (genFractal fp da data) = length data)
    by (apply genFractal_loop_exit; lia).
  unfold genFractal at 1.
  transitivity
    (snd (genFractal_loop fp da (length (genFractal fp da data)) 0 data)).
  - apply genFractal_loop_agree.
    + intros c. unfold pixelColor.
      destruct (fst (escapeTime fp c) =? max_iters fp)%Z;
        [simpl; lia|apply Hcol].
    + exact Hlen.
    + intros j Hj. lia.
    + lia.
  - rewrite Hlen. reflexivity.
Qed.

Lemma X21_render_idempotent_witness :
  (forall i c, 4 <= length (colorFunc frac_params i c))%nat /\
  genFractal frac_params (mkDrawArea 1 1)
    (genFractal frac_params (mkDrawArea 1 1) [7; 7; 7; 7]%Z) =
  genFractal frac_params (mkDrawArea 1 1) [7; 7; 7; 7]%Z.
Proof.
  assert (Hcol : (forall i c, 4 <= length (colorFunc frac_params i c))%nat)
    by (intros i c; simpl; lia).
  split; [exact Hcol|].
  apply (X21_render_idempotent frac_params (mkDrawArea 1 1)
           [7; 7; 7; 7]%Z Hcol).
Defined.

(** ** The Julia program: escape timing *)

Lemma Julia_escapeLoop_spec func smooth c n : forall i z,
  (Julia.escapeLoop func smooth c n i z = None /\
   forall k, (1 <= k <= n)%nat ->
     ~ Julia.abs2 (orbit_from func c z k) >= 4)
  \/
  (exists k, (1 <= k <= n)%nat /\
     Julia.escapeLoop func smooth c n i z
       = Some (smooth (i + Z.of_nat k - 1)%Z c) /\
     Julia.abs2 (orbit_from func c z k) >= 4 /\
     forall j, (1 <= j < k)%nat ->
       ~ Julia.abs2 (orbit_from func c z j) >= 4).
Proof.
  induction n as [|n IH]; intros i z; simpl.
  - left. split; [reflexivity|]. intros k Hk. lia.
  - destruct (Rge_dec (Julia.abs2 (func z c)) 4) as [Hesc|Hno].
    + right. exists 1%nat. simpl.
      split; [lia|]. split; [do 2 f_equal; lia|].
      split; [exact Hesc|]. intros j Hj. lia.
    + destruct (IH (i + 1)%Z (func z c)) as
        [(Hnone & Hall)|(k & Hk & Hsome & Hesc & Hall)].
      * left. split; [exact Hnone|].
        intros k Hk. destruct k as [|k]; [lia|].
        destruct k as [|k]; [exact Hno|].
        rewrite <- orbit_from_shift. apply Hall. lia.
      * right. exists (S k). split; [lia|]. split.
        { rewrite Hsome. do 2 f_equal. lia. }
        rewrite <- orbit_from_shift. split; [exact Hesc|].
        intros j Hj. destruct j as [|j]; [lia|].
        destruct j as [|j]; [exact Hno|].
        rewrite <- orbit_from_shift. apply Hall. lia.
Qed.

(** X22. The Julia escape timing without smoothing returns a whole
    count between 1 and [iters]: the 1-based number of the first
    iterate with [abs2(z) >= 4], or [iters] when there is none.
    [monocolor] paints the point white exactly when an iterate before
    the last one escapes, and black otherwise: an escape at the last
    iteration, which returns [iters] as well, is painted as captured. *)
Theorem X22_julia_escape_time func iters c :
  (1 <= iters)%Z ->
  let e := Julia.escapeTimeWith func iters Julia.noSmooth c in
  let escapes k := Julia.abs2 (orbit_from func c (0, 0) k) >= 4 in
  (exists t, (1 <= t <= iters)%Z /\ e = IZR t) /\
  (Julia.monocolor iters e = (1, 1, 1, 1) <->
     exists k, (1 <= k < Z.to_nat iters)%nat /\ escapes k) /\
  (Julia.monocolor iters e = (0, 0, 0, 1) <->
     forall k, (1 <= k < Z.to_nat iters)%nat -> ~ escapes k).
Proof.
  intros Hpos e escapes.
  assert (Hbw : ((0, 0, 0, 1) : Julia.RGBA) <> (1, 1, 1, 1)).
  { intros H. injection H as H _ _. lra. }
  unfold Julia.escapeTimeWith in e.
  destruct (Julia_escapeLoop_spec func Julia.noSmooth c
              (Z.to_nat iters) 1%Z (0, 0)) as
    [(Hnone & Hall)|(k & Hk & Hsome & Hesc & Hall)].
  - assert (He : e = IZR iters) by (subst e; rewrite Hnone; reflexivity).
    assert (Hblack : Julia.monocolor iters e = (0, 0, 0, 1)).
    { unfold Julia.monocolor. rewrite He.
      destruct (Req_dec_T (IZR iters) (IZR iters)); [reflexivity|tauto]. }
    split; [exists iters; split; [lia|exact He]|].
    rewrite Hblack. split.
    + split; [intros H; exfalso; exact (Hbw H)|].
      intros (k & Hk & Hesc). exfalso. apply (Hall k); [lia|exact Hesc].
    + split; [|reflexivity]. intros _ k Hk. apply Hall. lia.
  - assert (He : e = IZR (Z.of_nat k)).
    { subst e. rewrite Hsome. unfold Julia.noSmooth. f_equal. lia. }
    split; [exists (Z.of_nat k); split; [lia|exact He]|].
    unfold Julia.monocolor. rewrite He.
    destruct (Req_dec_T (IZR (Z.of_nat k)) (IZR iters)) as [Heq|Hne].
    + apply eq_IZR in Heq.
      split.
      * split; [intros H; exfalso; exact (Hbw H)|].
        intros (j & Hj & Hjesc). exfalso. apply (Hall j); [lia|exact Hjesc].
      * split; [|reflexivity]. intros _ j Hj. apply Hall. lia.
    + assert (Hlt : (k < Z.to_nat iters)%nat).
      { destruct (Nat.eq_dec k (Z.to_nat iters)) as [->|]; [|lia].
        exfalso. apply Hne. f_equal. lia. }
      split.
      * split; [|reflexivity]. intros _. exists k. split; [lia|exact Hesc].
      * split; [intros H; exfalso; apply Hbw; symmetry; exact H|].
        intros H. exfalso. apply (H k); [lia|exact Hesc].
Qed.

Lemma X22_julia_escape_time_witness :
  (1 <= 1000)%Z /\
  exists t, (1 <= t <= 1000)%Z /\
    Julia.escapeTimeWith default_iterFunc 1000 Julia.noSmooth (3, 0) = IZR t.
Proof.
  assert (H : (1 <= 1000)%Z) by lia.
  split; [exact H|].
  apply (X22_julia_escape_time default_iterFunc 1000 (3, 0) H).
Defined.
